(** * Annotated computation graphs (blocks/graph.py)

    A shallow embedding of [blocks.graph]: the [ComputationGraph] container
    with its discovery pass [_get_variables], the annotation attacher
    [add_annotation], [Annotation.add_auxiliary_variable], and the graph
    transformations [replace], [apply_noise] and [collect_parameters].

    Python objects are modelled by their identity (a [positive]) and a
    store holding their attributes.  Theano itself is not part of the
    module: its traversal, cloning and compilation primitives are section
    variables, and the nodes the module builds through Theano operators are
    allocated in the store with the operator that produced them. *)

From Stdlib Require Import ZArith String PrimFloat.
From stdpp Require Import base strings list gmap fin_maps.

Open Scope Z_scope.

(** ** Identities *)

(** [id(obj)] of a Theano [Variable], a tag scratchpad, an [Annotation]
    instance and a [ComputationGraph] instance. *)
Abbreviation var := positive (only parsing).
Abbreviation tref := positive (only parsing).
Abbreviation annref := positive (only parsing).
Abbreviation gref := positive (only parsing).

(** A role label ([blocks.roles]); [AUXILIARY] is the one the module names. *)
Abbreviation Role := string (only parsing).
Definition AUXILIARY : Role := "AUXILIARY"%string.

(** ** Theano objects *)

(** The operators through which this module builds new nodes, and a catch-all
    for the rest of Theano. *)
Inductive Op :=
  | Subtensor (start stop : Z)                 (* x[start:stop] *)
  | Reshape (shape : list Z)                   (* x.reshape(shape) *)
  | Shape                                      (* x.shape *)
  | Add                                        (* a + b *)
  | Normal (seed : Z) (draw : nat) (std : float)  (* rng.normal(size, std=..) *)
  | OtherOp (name : string).

(** An apply node: an operator and the variables it consumes. *)
Module Apply.
Record t := mk { op : Op; inputs : list var }.
End Apply.

(** The container of a shared variable, as far as the module reads it:
    [.shape], and [.size] which numpy defines as the product of the shape. *)
Record ndarray := mkArray { shape : list Z }.
Definition size (a : ndarray) : Z := foldr Z.mul 1 (shape a).

(** [var.tag]: a scratchpad whose attributes may be absent
    ([getattr(var.tag, 'annotations', [])], [hasattr(var.tag, 'roles')]). *)
Record Tag := mkTag {
  tag_name : option string;
  annotations : option (list annref);
  roles : option (list Role)
}.

Global Instance Tag_inhabited : Inhabited Tag := populate (mkTag None None None).

(** ** OrderedDict *)

(** An insertion-ordered mapping from variables to variables.  Assigning to
    a key already present keeps its position and replaces its value;
    assigning to a new key appends. *)
Abbreviation odict := (list (var * var)) (only parsing).

Fixpoint odict_lookup (k : var) (d : odict) : option var :=
  match d with
  | [] => None
  | (k', v) :: d' => if decide (k = k') then Some v else odict_lookup k d'
  end.

Fixpoint odict_setitem (k v : var) (d : odict) : odict :=
  match d with
  | [] => [(k, v)]
  | (k', v') :: d' =>
      if decide (k = k') then (k, v) :: d' else (k', v') :: odict_setitem k v d'
  end.

(** [d.update(e)] *)
Definition odict_update (d e : odict) : odict :=
  foldl (λ acc kv, odict_setitem kv.1 kv.2 acc) d e.

(** [OrderedDict(pairs)] *)
Definition OrderedDict (pairs : list (var * var)) : odict := odict_update [] pairs.

(** Modelled from the spec: [dict_union] lives in [blocks.utils], which is
    not part of the sources at hand.  The spec describes the merge as a
    dictionary union in which later entries silently overwrite earlier ones;
    the result is a new ordered mapping, filled from the first argument and
    then from the second. *)
Definition dict_union (d e : odict) : odict := odict_update (odict_update [] d) e.

(** ** Blocks objects *)

Module Annotation.
Record t := mk {
  class : string;                      (* __class__ *)
  auxiliary_variables : list var;
  updates : odict
}.
End Annotation.

Global Instance Annotation_inhabited : Inhabited Annotation.t :=
  populate (Annotation.mk "Annotation" [] []).

Module ComputationGraph.
Record t := mk {
  outputs : list var;
  variables : list var;
  updates : odict
}.
End ComputationGraph.

Global Instance ComputationGraph_inhabited : Inhabited ComputationGraph.t :=
  populate (ComputationGraph.mk [] [] []).

(** ** The store *)

(** What Theano holds.  A variable is born with a scratchpad of its own,
    which we name by the variable's identity; [var_tag] records the
    variables whose [tag] attribute was rebound to another scratchpad
    ([new_param.tag = param.tag]).  A scratchpad without an entry in [tags]
    has no attribute set; a variable without an entry in [var_name] has
    [name] equal to [None]. *)
Record Theano := mkTheano {
  vars : gset var;
  var_name : gmap var string;
  var_tag : gmap var tref;
  owner : gmap var Apply.t;
  value : gmap var ndarray;
  tags : gmap tref Tag
}.

Record World := mkWorld {
  theano : Theano;
  stores : gmap annref Annotation.t;
  graphs : gmap gref ComputationGraph.t
}.

Definition tag_of (th : Theano) (v : var) : tref := default v (var_tag th !! v).
Definition tag (th : Theano) (v : var) : Tag := tags th !!! tag_of th v.

(** [getattr(var.tag, 'annotations', [])] *)
Definition annotations_of (th : Theano) (v : var) : list annref :=
  default [] (annotations (tag th v)).

(** [getattr(var.tag, 'roles', [])] *)
Definition roles_of (th : Theano) (v : var) : list Role :=
  default [] (roles (tag th v)).

Definition store (w : World) (a : annref) : Annotation.t := stores w !!! a.
Definition graph (w : World) (g : gref) : ComputationGraph.t := graphs w !!! g.

Definition set_theano (th : Theano) (w : World) : World :=
  mkWorld th (stores w) (graphs w).
Definition set_store (a : annref) (s : Annotation.t) (w : World) : World :=
  mkWorld (theano w) (<[a := s]> (stores w)) (graphs w).
Definition set_graph (g : gref) (c : ComputationGraph.t) (w : World) : World :=
  mkWorld (theano w) (stores w) (<[g := c]> (graphs w)).

Definition set_tag (t : tref) (x : Tag) (th : Theano) : Theano :=
  mkTheano (vars th) (var_name th) (var_tag th) (owner th) (value th)
           (<[t := x]> (tags th)).
Definition set_var_name (v : var) (n : string) (th : Theano) : Theano :=
  mkTheano (vars th) (<[v := n]> (var_name th)) (var_tag th) (owner th)
           (value th) (tags th).
Definition set_var_tag (v : var) (t : tref) (th : Theano) : Theano :=
  mkTheano (vars th) (var_name th) (<[v := t]> (var_tag th)) (owner th)
           (value th) (tags th).

(** A new [Variable] object: a fresh identity, produced by [ow] if given,
    holding the container [val] if it is a shared variable. *)
Definition new_variable (ow : option Apply.t) (val : option ndarray)
    (th : Theano) : var * Theano :=
  let v := fresh (vars th) in
  (v, mkTheano ({[v]} ∪ vars th) (var_name th) (var_tag th)
        (match ow with Some a => <[v := a]> (owner th) | None => owner th end)
        (match val with Some x => <[v := x]> (value th) | None => value th end)
        (tags th)).

(** ** Exceptions and the state monad *)

Inductive exn := ValueError | AttributeError.

Inductive outcome (A : Type) :=
  | Return (a : A) (w : World)
  | Raise (e : exn) (w : World).
Arguments Return {A} a w.
Arguments Raise {A} e w.

Definition M (A : Type) : Type := World → outcome A.

Global Instance M_ret : MRet M := λ A a w, Return a w.
Global Instance M_bind : MBind M := λ A B f m w,
  match m w with
  | Return a w' => f a w'
  | Raise e w' => Raise e w'
  end.

Definition raise {A} (e : exn) : M A := λ w, Raise e w.
Definition gets {A} (f : World → A) : M A := λ w, Return (f w) w.
Definition modify (f : World → World) : M unit := λ w, Return tt (f w).
Definition modify_theano (f : Theano → Theano) : M unit :=
  modify (λ w, set_theano (f (theano w)) w).
(** Run a Theano primitive that returns a value and a new Theano store. *)
Definition in_theano {A} (f : Theano → A * Theano) : M A := λ w,
  let r := f (theano w) in Return r.1 (set_theano r.2 w).

(** [for x in l: acc = body(acc, x)] *)
Fixpoint for_each {A B} (body : B → A → M B) (l : list A) (acc : B) : M B :=
  match l with
  | [] => mret acc
  | x :: l' => acc' ← body acc x; for_each body l' acc'
  end.

(** ** Discovery *)

(** [[x for x in l if not (x in seen or seen.add(x))]]: the elements of [l]
    not seen before, in order, and the set [seen] as the comprehension
    leaves it. *)
Fixpoint unseen (l : list var) (seen : gset var) : list var * gset var :=
  match l with
  | [] => ([], seen)
  | x :: l' =>
      if decide (x ∈ seen) then unseen l' seen
      else let r := unseen l' ({[x]} ∪ seen) in (x :: r.1, r.2)
  end.

(** The local variables of the second loop of [_get_variables]. *)
Record scan := mkScan {
  seen : gset annref;
  seen_avs : gset var;
  scan_variables : list var;
  scan_updates : odict
}.

(** [var.owner is not None] *)
Definition has_owner (th : Theano) (v : var) : bool :=
  bool_decide (is_Some (owner th !! v)).

Section Discovery.
(** [graph.inputs] followed by [sort_apply_nodes] with the dependence
    comparator: the apply nodes between the roots and the outputs, in
    dependency order.  The order is Theano's, so a parameter; it is what
    the call returns when it returns.  Theano starts its search at
    [o.owner] for every output [o] and reads the [inputs] of what it finds
    there, so the call raises [AttributeError] when an output has no owner
    (see [_get_variables]). *)
Variable sort_apply_nodes : Theano → list var → list Apply.t.

Definition main_vars (th : Theano) (outs : list var) : list var :=
  (unseen (concat (Apply.inputs <$> sort_apply_nodes th outs)) ∅).1 ++ outs.

(** The body of [for annotation in getattr(var.tag, 'annotations', [])]. *)
Definition visit_annotation (w : World) (st : scan) (a : annref) : scan :=
  if decide (a ∈ seen st) then st
  else
    let new_avs := unseen (Annotation.auxiliary_variables (store w a)) (seen_avs st) in
    mkScan ({[a]} ∪ seen st) new_avs.2
           (scan_variables st ++ new_avs.1)
           (dict_union (scan_updates st) (Annotation.updates (store w a))).

(** The body of [for var in main_vars]. *)
Definition visit_var (w : World) (st : scan) (v : var) : scan :=
  foldl (visit_annotation w)
        (mkScan (seen st) (seen_avs st) (scan_variables st ++ [v]) (scan_updates st))
        (annotations_of (theano w) v).

Definition discover (w : World) (outs : list var) : scan :=
  let mv := main_vars (theano w) outs in
  foldl (visit_var w) (mkScan ∅ (list_to_set mv) [] []) mv.

(** [self._get_variables()].  The call of [sort_apply_nodes] on line 90
    raises before anything is collected when an output has no owner;
    otherwise the two loops run and their results are stored. *)
Definition _get_variables (self : gref) : M unit :=
  outs ← gets (λ w, ComputationGraph.outputs (graph w self));
  sortable ← gets (λ w, forallb (has_owner (theano w)) outs);
  if sortable : bool then
    st ← gets (λ w, discover w outs);
    modify (set_graph self
      (ComputationGraph.mk outs (scan_variables st) (scan_updates st)))
  else raise AttributeError.
End Discovery.

(** ** The annotation attacher *)

Definition set_annotations (v : var) (l : list annref) (th : Theano) : Theano :=
  set_tag (tag_of th v) (mkTag (tag_name (tag th v)) (Some l) (roles (tag th v))) th.
Definition set_roles (v : var) (l : list Role) (th : Theano) : Theano :=
  set_tag (tag_of th v) (mkTag (tag_name (tag th v)) (annotations (tag th v)) (Some l)) th.
Definition set_tag_name (v : var) (n : string) (th : Theano) : Theano :=
  set_tag (tag_of th v) (mkTag (Some n) (annotations (tag th v)) (roles (tag th v))) th.

(** [any(old.__class__ == annotation.__class__ for old in annotations)] *)
Definition same_class (w : World) (annotation : annref) (l : list annref) : bool :=
  existsb (λ old, bool_decide (Annotation.class (store w old)
                               = Annotation.class (store w annotation))) l.

Definition add_annotation (v : var) (annotation : annref) : M unit :=
  l ← gets (λ w, annotations_of (theano w) v);
  dup ← gets (λ w, same_class w annotation l);
  if dup : bool then raise ValueError
  else modify_theano (set_annotations v (l ++ [annotation])).

(** ** Annotation stores *)

(** [Annotation()] for the class named [cls] (the base class or a subclass
    that inherits the constructor). *)
Definition Annotation__init__ (cls : string) : M annref := λ w,
  let a := fresh (dom (stores w)) in
  Return a (set_store a (Annotation.mk cls [] []) w).

Section Roles.
(** Modelled from the spec: [add_role] lives in [blocks.roles], which is
    not part of the sources at hand.  The spec has it attach a role label
    to the node's metadata, the list [var.tag.roles] read by
    [ComputationGraph.auxiliary_variables].  How the new list is obtained
    from the label and the list already there is left open. *)
Variable role_insert : Role → list Role → list Role.

Definition add_role (v : var) (role : Role) : M unit :=
  modify_theano (λ th, set_roles v (role_insert role (roles_of th v)) th).

Definition add_auxiliary_variable (self : annref) (expression : var)
    (roles : option (list Role)) (name : option string) : M unit :=
  add_annotation expression self;;
  match name with
  | Some n =>
      modify_theano (set_var_name expression n);;
      modify_theano (set_tag_name expression n)
  | None => mret tt
  end;;
  add_role expression AUXILIARY;;
  match roles with
  | Some rs => for_each (λ _ role, add_role expression role) rs tt
  | None => mret tt
  end;;
  modify (λ w,
    let s := store w self in
    set_store self
      (Annotation.mk (Annotation.class s)
         (Annotation.auxiliary_variables s ++ [expression])
         (Annotation.updates s)) w).
End Roles.

(** ** The computation graph *)

(** The constructor accepts a variable or a list of variables. *)
Inductive outputs_arg := OneVariable (v : var) | VariableList (l : list var).

(** What [theano.clone] accepts as [replace]: a dict or a list of pairs. *)
Inductive replacements :=
  | ReplaceDict (d : gmap var var)
  | ReplacePairs (l : list (var * var)).

(** The call [theano.function(inputs, outputs, updates=updates)]; the
    compilation itself is Theano's. *)
Record Function := mkFunction {
  fn_inputs : list var;
  fn_outputs : list var;
  fn_updates : odict
}.

Section Graph.
Variable sort_apply_nodes : Theano → list var → list Apply.t.
(** [blocks.utils.is_graph_input], not part of the sources at hand. *)
Variable is_graph_input : Theano → var → bool.
(** [theano.clone(outputs, replace=...)]: the new outputs and the Theano
    store extended with the cloned nodes. *)
Variable theano_clone : list var → replacements → Theano → list var * Theano.

(** [ComputationGraph(outputs)]: a new object whose [outputs] attribute is
    set before [_get_variables] fills in [variables] and [updates], or
    raises and leaves the object without them. *)
Definition ComputationGraph__init__ (outputs : outputs_arg) : M gref :=
  let outputs :=
    match outputs with OneVariable v => [v] | VariableList l => l end in
  self ← (λ w, let g := fresh (dom (graphs w)) in
             Return g (set_graph g (ComputationGraph.mk outputs [] []) w));
  _get_variables sort_apply_nodes self;;
  mret self.

Definition inputs (self : gref) : M (list var) :=
  gets (λ w, List.filter (is_graph_input (theano w))
               (ComputationGraph.variables (graph w self))).

Definition replace (self : gref) (r : replacements) : M gref :=
  outs ← gets (λ w, ComputationGraph.outputs (graph w self));
  outs' ← in_theano (theano_clone outs r);
  ComputationGraph__init__ (VariableList outs').

Definition get_theano_function (self : gref)
    (additional_updates : option (list (var * var))) : M Function :=
  updates ← gets (λ w, ComputationGraph.updates (graph w self));
  let updates :=
    match additional_updates with
    | None | Some [] => updates
    | Some l => dict_union updates (OrderedDict l)
    end in
  ins ← inputs self;
  outs ← gets (λ w, ComputationGraph.outputs (graph w self));
  mret (mkFunction ins outs updates).

(** ** Transformations *)

(** [config.default_seed] *)
Variable default_seed : Z.

(** An [MRG_RandomStreams] object: its seed and the draws made so far. *)
Record rng := MRG_RandomStreams_at { rng_seed : Z; rng_draws : nat }.
Definition MRG_RandomStreams (seed : Z) : rng := MRG_RandomStreams_at seed 0.

Definition new_node (o : Op) (ins : list var) : M var :=
  in_theano (new_variable (Some (Apply.mk o ins)) None).

(** The loop of [apply_noise]: one normal draw per variable. *)
Definition noise_replacements (r : rng) (variables : list var)
    (level : float) : M (gmap var var) :=
  res ← for_each (λ (acc : gmap var var * nat) variable,
      sh ← new_node Shape [variable];
      noise ← new_node (Normal (rng_seed r) acc.2 level) [sh];
      noisy ← new_node Add [variable; noise];
      mret (<[variable := noisy]> acc.1, S acc.2))
    variables (∅, rng_draws r);
  mret res.1.

Definition apply_noise (g : gref) (variables : list var) (level : float)
    (seed : option Z) : M gref :=
  let seed :=
    match seed with
    | Some n => if decide (n = 0) then default_seed else n
    | None => default_seed
    end in
  let r := MRG_RandomStreams seed in
  repl ← noise_replacements r variables level;
  replace g (ReplaceDict repl).

(** [param.get_value(borrow=True)]; only shared variables have a
    container. *)
Definition get_value (param : var) : M ndarray := λ w,
  match value (theano w) !! param with
  | Some a => Return a w
  | None => Raise AttributeError w
  end.

(** [numpy.cumsum].  numpy accumulates in its default integer type; the
    element counts of arrays that exist in memory stay far below its range,
    so the sums are taken in [Z]. *)
Fixpoint cumsum_from (acc : Z) (l : list Z) : list Z :=
  match l with
  | [] => []
  | x :: l' => (acc + x) :: cumsum_from (acc + x) l'
  end.
Definition cumsum (l : list Z) : list Z := cumsum_from 0 l.

(** Python's [sum] *)
Definition sum (l : list Z) : Z := foldl Z.add 0 l.

(** Modelled from the spec: [shared_floatx_zeros] lives in
    [blocks.utils], which is not part of the sources at hand.  The spec
    has it make one fresh contiguous buffer sized to the element count
    given: a new shared variable holding a vector of that length. *)
Definition shared_floatx_zeros (n : Z) : M var :=
  in_theano (new_variable None (Some (mkArray [n]))).

(** Lines 359 to 374 of [collect_parameters]: the buffer and the
    replacement of each parameter. *)
Definition collected_replacements (params : list var) : M (var * gmap var var) :=
  acc ← for_each (λ (acc : list ndarray * list Z * list (list Z)) param,
      a ← get_value param;
      mret (acc.1.1 ++ [a], acc.1.2 ++ [size a], acc.2 ++ [shape a]))
    params ([], [], []);
  let param_sizes := acc.1.2 in
  let param_shapes := acc.2 in
  new_params ← shared_floatx_zeros (sum param_sizes);
  modify_theano (set_var_name new_params "collected_params");;
  repl ← for_each (λ (repl : gmap var var) (x : var * (list Z * (Z * Z))),
      sliced ← new_node (Subtensor x.2.2.1 x.2.2.2) [new_params];
      new_param ← new_node (Reshape x.2.1) [sliced];
      modify_theano (λ th, set_var_tag new_param (tag_of th x.1) th);;
      mret (<[x.1 := new_param]> repl))
    (zip params (zip param_shapes
       (zip (cumsum (0 :: removelast param_sizes)) (cumsum param_sizes))))
    ∅;
  mret (new_params, repl).

Definition collect_parameters (g : gref) (params : list var) : M gref :=
  r ← collected_replacements params;
  replace g (ReplaceDict r.2).
End Graph.

(** ** Further views of the computation graph *)

(** [hasattr(var.tag, 'roles') and AUXILIARY in var.tag.roles] *)
Definition has_auxiliary_role (th : Theano) (v : var) : bool :=
  match roles (tag th v) with
  | Some rs => bool_decide (AUXILIARY ∈ rs)
  | None => false
  end.

Definition auxiliary_variables (self : gref) : M (list var) :=
  gets (λ w, List.filter (has_auxiliary_role (theano w))
               (ComputationGraph.variables (graph w self))).

Section Views.
Variable is_graph_input : Theano → var → bool.

Definition intermediary_variables (self : gref) : M (list var) :=
  ins ← inputs is_graph_input self;
  gets (λ w, List.filter
               (λ v, negb (bool_decide (v ∈ ins))
                     && negb (bool_decide (v ∈ ComputationGraph.outputs (graph w self))))
               (ComputationGraph.variables (graph w self))).

(** [{var.name: var for var in self.inputs}]; the name of a variable may be
    [None], and a key met again takes the later variable. *)
Definition dict_of_inputs (self : gref) : M (gmap (option string) var) :=
  ins ← inputs is_graph_input self;
  gets (λ w, foldl (λ d v, <[var_name (theano w) !! v := v]> d) ∅ ins).
End Views.

(** The store a computation leaves behind, whether it returns or raises. *)
Definition world_after {A} (m : M A) (w : World) : World :=
  match m w with
  | Return _ w' => w'
  | Raise _ w' => w'
  end.

(** ** Loop invariants of the discovery pass *)

(** [seen_avs] holds the main path and everything collected so far, and
    with them the auxiliary variables of every store visited. *)
Definition scan_inv (w : World) (mv : list var) (st : scan) : Prop :=
  seen_avs st = list_to_set mv ∪ list_to_set (scan_variables st)
  ∧ ∀ a av, a ∈ seen st →
      av ∈ Annotation.auxiliary_variables (store w a) → av ∈ seen_avs st.

(** The variables collected so far are the main-path prefix [P] already
    walked, interleaved with auxiliary variables that are pairwise
    distinct and outside the main path. *)
Definition merged (w : World) (mv P : list var) (st : scan) : Prop :=
  scan_inv w mv st
  ∧ ∃ A, scan_variables st ≡ₚ P ++ A ∧ NoDup A ∧ ∀ x, x ∈ A → x ∉ mv.

(** ** Auxiliary notions for [collect_parameters] *)

(** The bounds of consecutive slices of lengths [l], starting at [acc]. *)
Fixpoint offsets_from (acc : Z) (l : list Z) : list (Z * Z) :=
  match l with
  | [] => []
  | s :: l' => (acc, acc + s) :: offsets_from (acc + s) l'
  end.

(** [th'] has the variables of [th], unchanged, and possibly more; no
    container, scratchpad or name differs. *)
Definition extends (th th' : Theano) : Prop :=
  vars th ⊆ vars th'
  ∧ value th' = value th ∧ tags th' = tags th ∧ var_name th' = var_name th
  ∧ ∀ v, v ∈ vars th →
      owner th' !! v = owner th !! v ∧ var_tag th' !! v = var_tag th !! v.

(** ** Example graphs *)

(** The graph of [test_computation_graph_variable_duplicate]:
    [w = x + y], [z = exp(w)], with [x], [y], [w], [z] numbered 1 to 4. *)
Definition add_x_y : Apply.t := Apply.mk Add [1; 2]%positive.
Definition exp_w : Apply.t := Apply.mk (OtherOp "exp") [3%positive].
Definition duplicate_world : World :=
  mkWorld
    (mkTheano (list_to_set [1; 2; 3; 4]%positive) ∅ ∅
       (<[3%positive := add_x_y]> (<[4%positive := exp_w]> ∅)) ∅ ∅)
    ∅ ∅.
(** Its only dependency order. *)
Definition duplicate_sort : Theano → list var → list Apply.t :=
  λ _ _, [add_x_y; exp_w].

(** A graph with annotations: [y = sqr(x)] with [x], [y] numbered 1, 2;
    the store 1 is attached to [x] and holds the auxiliary variable 3 and
    the update of the shared variable 5 by 6; the store 2, of the same
    class, is attached to [y] and holds the auxiliary variable 4 and the
    update of the shared variable 7 by 8; the store 3 is of another class
    and attached nowhere.  The graph object 1 was built from [[y]]. *)
Definition sqr_x : Apply.t := Apply.mk (OtherOp "sqr") [1%positive].
Definition example_world : World :=
  mkWorld
    (mkTheano (list_to_set [1; 2; 3; 4; 5; 6; 7; 8]%positive) ∅ ∅
       (<[2%positive := sqr_x]>
          (<[3%positive := Apply.mk (OtherOp "mean") [1%positive]]>
             (<[4%positive := Apply.mk (OtherOp "mean") [2%positive]]> ∅)))
       (<[5%positive := mkArray [2; 3]]> (<[7%positive := mkArray [4]]> ∅))
       (<[1%positive := mkTag None (Some [1%positive]) None]>
          (<[2%positive := mkTag None (Some [2%positive]) None]>
             (<[3%positive := mkTag None (Some [1%positive]) (Some [AUXILIARY])]>
                (<[4%positive := mkTag None (Some [2%positive]) (Some [AUXILIARY])]> ∅)))))
    (<[1%positive := Annotation.mk "Annotation" [3%positive] [(5, 6)%positive]]>
       (<[2%positive := Annotation.mk "Annotation" [4%positive] [(7, 8)%positive]]>
          (<[3%positive := Annotation.mk "Brick" [] []]> ∅)))
    (<[1%positive := ComputationGraph.mk [2%positive] [1; 3; 2; 4]%positive
                       [(5, 6); (7, 8)]%positive]> ∅).
Definition example_sort : Theano → list var → list Apply.t := λ _ _, [sqr_x].
(** Cloning with nothing to replace shares every node. *)
Definition example_clone : list var → replacements → Theano → list var * Theano :=
  λ outs _ th, (outs, th).
Definition example_is_graph_input : Theano → var → bool :=
  λ th v, bool_decide (owner th !! v = None ∧ value th !! v = None).
(** A role list that grows by appending the labels it lacks. *)
Definition append_role : Role → list Role → list Role :=
  λ r l, if decide (r ∈ l) then l else l ++ [r].

(** * Properties *)

(** ** Facts about [unseen] *)

Lemma unseen_seen (l : list var) (s : gset var) :
  (unseen l s).2 = s ∪ list_to_set l.
Proof.
  revert s. induction l as [|x l IH]; intros s; simpl.
  - set_solver.
  - case_decide; simpl; rewrite IH; set_solver.
Qed.

Lemma unseen_elem (x : var) (l : list var) (s : gset var) :
  x ∈ (unseen l s).1 ↔ x ∈ l ∧ x ∉ s.
Proof.
  revert s. induction l as [|y l IH]; intros s; simpl.
  - set_solver.
  - case_decide; simpl.
    + rewrite IH. set_solver.
    + rewrite elem_of_cons, IH. 
      destruct (decide (x = y)); set_solver.
Qed.

Lemma unseen_NoDup (l : list var) (s : gset var) :
  NoDup (unseen l s).1.
Proof.
  revert s. induction l as [|y l IH]; intros s; simpl.
  - constructor.
  - case_decide; simpl; [apply IH|].
    constructor; [|apply IH].
    rewrite unseen_elem. set_solver.
Qed.

Lemma unseen_app (l k : list var) (s : gset var) :
  unseen (l ++ k) s =
    ((unseen l s).1 ++ (unseen k (unseen l s).2).1, (unseen k (unseen l s).2).2).
Proof.
  revert s. induction l as [|x l IH]; intros s; simpl.
  - by destruct (unseen k s).
  - case_decide; simpl; by rewrite IH.
Qed.

Lemma prefix_sublist {A} (l k : list A) : l `prefix_of` k → l `sublist_of` k.
Proof. intros [m ->]. by apply sublist_inserts_r. Qed.

(** ** Ordered dictionaries *)

Lemma odict_lookup_setitem (k k' v : var) (d : odict) :
  odict_lookup k (odict_setitem k' v d)
  = if decide (k = k') then Some v else odict_lookup k d.
Proof.
  induction d as [|[k0 v0] d IH]; simpl.
  - by repeat case_decide.
  - repeat (case_decide; simpl; subst); try done.
Qed.

Lemma odict_update_snoc (d e : odict) k v :
  odict_update d (e ++ [(k, v)]) = odict_setitem k v (odict_update d e).
Proof. unfold odict_update. by rewrite foldl_snoc. Qed.

Lemma odict_lookup_update (k : var) (d e : odict) :
  odict_lookup k (odict_update d e)
  = match odict_lookup k (OrderedDict e) with
    | Some v => Some v
    | None => odict_lookup k d
    end.
Proof.
  unfold OrderedDict. induction e as [|[k' v] e IH] using rev_ind; [done|].
  rewrite !odict_update_snoc, !odict_lookup_setitem. by case_decide.
Qed.

Lemma odict_setitem_keys (k v : var) (d : odict) :
  (odict_setitem k v d).*1 = if decide (k ∈ d.*1) then d.*1 else d.*1 ++ [k].
Proof.
  induction d as [|[k0 v0] d IH]; cbn [odict_setitem].
  { destruct (decide (k ∈ [])) as [H|H]; [by apply elem_of_nil in H|done]. }
  destruct (decide (k = k0)) as [->|Hk]; rewrite !fmap_cons; cbn [fst].
  - rewrite decide_True; [done|set_solver].
  - rewrite IH. destruct (decide (k ∈ d.*1)).
    + rewrite decide_True; [done|set_solver].
    + rewrite decide_False; [done|set_solver].
Qed.

Lemma odict_setitem_NoDup (k v : var) (d : odict) :
  NoDup d.*1 → NoDup (odict_setitem k v d).*1.
Proof.
  intros H. rewrite odict_setitem_keys. case_decide; [done|].
  apply NoDup_app. split; [done|]. split; [set_solver|apply NoDup_singleton].
Qed.

Lemma odict_update_NoDup (d e : odict) :
  NoDup d.*1 → NoDup (odict_update d e).*1.
Proof.
  intros H. induction e as [|[k v] e IH] using rev_ind; [done|].
  rewrite odict_update_snoc. by apply odict_setitem_NoDup.
Qed.

(** The keys of a merged mapping are unique. *)
Lemma dict_union_NoDup (d e : odict) : NoDup (dict_union d e).*1.
Proof. unfold dict_union. apply odict_update_NoDup, odict_update_NoDup. constructor. Qed.

(** Filling an empty mapping from the items of a mapping gives it back. *)
Lemma OrderedDict_items (d : odict) :
  NoDup d.*1 → OrderedDict d = d.
Proof.
  unfold OrderedDict. induction d as [|[k v] d IH] using rev_ind; [done|].
  rewrite fmap_app, NoDup_app. intros (Hd & Hk & _).
  rewrite odict_update_snoc, IH by done.
  clear IH. induction d as [|[k0 v0] d IH]; simpl; [done|].
  rewrite decide_False.
  - f_equal. apply IH; [by inversion Hd|]. intros x Hx. apply Hk. set_solver.
  - intros ->. apply (Hk k0); set_solver.
Qed.

Lemma odict_lookup_dict_union (k : var) (d e : odict) :
  NoDup d.*1 →
  odict_lookup k (dict_union d e)
  = match odict_lookup k (OrderedDict e) with
    | Some v => Some v
    | None => odict_lookup k d
    end.
Proof.
  intros H. unfold dict_union. rewrite odict_lookup_update.
  change (odict_update [] d) with (OrderedDict d). by rewrite (OrderedDict_items d).
Qed.

(** ** Reading the store after an assignment *)

Lemma tag_of_set_tag th t x v : tag_of (set_tag t x th) v = tag_of th v.
Proof. done. Qed.
Lemma tag_of_set_var_name th u n v : tag_of (set_var_name u n th) v = tag_of th v.
Proof. done. Qed.

Lemma tag_set_tag th t x v :
  tag (set_tag t x th) v = if decide (t = tag_of th v) then x else tag th v.
Proof.
  unfold tag. simpl. rewrite tag_of_set_tag. case_decide as H.
  - subst. apply lookup_total_insert_eq.
  - by apply lookup_total_insert_ne.
Qed.

Lemma tag_set_var_name th u n v : tag (set_var_name u n th) v = tag th v.
Proof. done. Qed.

Lemma tag_set_annotations th v l :
  tag (set_annotations v l th) v
  = mkTag (tag_name (tag th v)) (Some l) (roles (tag th v)).
Proof. unfold set_annotations. rewrite tag_set_tag. by rewrite decide_True. Qed.

Lemma tag_set_roles th v l :
  tag (set_roles v l th) v
  = mkTag (tag_name (tag th v)) (annotations (tag th v)) (Some l).
Proof. unfold set_roles. rewrite tag_set_tag. by rewrite decide_True. Qed.

Lemma tag_set_tag_name th v n :
  tag (set_tag_name v n th) v
  = mkTag (Some n) (annotations (tag th v)) (roles (tag th v)).
Proof. unfold set_tag_name. rewrite tag_set_tag. by rewrite decide_True. Qed.

(** ** The discovery pass *)

Section DiscoveryFacts.
Variable sort_apply_nodes : Theano → list var → list Apply.t.
Variable w : World.

Lemma visit_annotation_prefix st a :
  scan_variables st `prefix_of` scan_variables (visit_annotation w st a).
Proof.
  unfold visit_annotation. case_decide; simpl; [done|].
  by apply prefix_app_r.
Qed.

Lemma visit_annotations_prefix l st :
  scan_variables st `prefix_of` scan_variables (foldl (visit_annotation w) st l).
Proof.
  revert st. induction l as [|a l IH]; intros st; simpl; [done|].
  etrans; [apply visit_annotation_prefix|apply IH].
Qed.

Lemma visit_var_prefix st v :
  scan_variables st ++ [v] `prefix_of` scan_variables (visit_var w st v).
Proof. unfold visit_var. apply (visit_annotations_prefix _ (mkScan _ _ _ _)). Qed.

(** The main path is a subsequence of the variables collected. *)
Lemma visit_vars_sublist mv st l :
  l `sublist_of` scan_variables st →
  l ++ mv `sublist_of` scan_variables (foldl (visit_var w) st mv).
Proof.
  revert st l. induction mv as [|v mv IH]; intros st l Hl; simpl.
  - by rewrite app_nil_r.
  - rewrite (assoc_L (++) l [v] mv : l ++ v :: mv = (l ++ [v]) ++ mv).
    apply IH. etrans; [|apply prefix_sublist, visit_var_prefix].
    by apply sublist_app.
Qed.

Lemma main_vars_sublist outs :
  main_vars sort_apply_nodes (theano w) outs
    `sublist_of` scan_variables (discover sort_apply_nodes w outs).
Proof. unfold discover. apply (visit_vars_sublist _ _ []). simpl. done. Qed.

(** *** Which stores are visited *)

Lemma visit_annotations_seen l st :
  seen (foldl (visit_annotation w) st l) = seen st ∪ list_to_set l
  ∧ scan_updates (foldl (visit_annotation w) st l)
    = foldl dict_union (scan_updates st)
        ((λ a, Annotation.updates (store w a)) <$> (unseen l (seen st)).1).
Proof.
  revert st. induction l as [|a l IH]; intros st; simpl.
  - split; [set_solver|done].
  - destruct (IH (visit_annotation w st a)) as [IH1 IH2].
    rewrite IH1, IH2. unfold visit_annotation.
    case_decide; simpl; (split; [set_solver|done]).
Qed.

Lemma visit_vars_seen mv st :
  seen (foldl (visit_var w) st mv)
    = seen st ∪ list_to_set (mv ≫= annotations_of (theano w))
  ∧ scan_updates (foldl (visit_var w) st mv)
    = foldl dict_union (scan_updates st)
        ((λ a, Annotation.updates (store w a))
           <$> (unseen (mv ≫= annotations_of (theano w)) (seen st)).1).
Proof.
  revert st. induction mv as [|v mv IH]; intros st; simpl.
  - split; [set_solver|done].
  - destruct (IH (visit_var w st v)) as [IH1 IH2].
    rewrite IH1, IH2. unfold visit_var.
    destruct (visit_annotations_seen (annotations_of (theano w) v)
      (mkScan (seen st) (seen_avs st) (scan_variables st ++ [v]) (scan_updates st)))
      as [H1 H2].
    rewrite H1, H2. simpl. split.
    + rewrite list_to_set_app_L. set_solver.
    + rewrite unseen_app. simpl. rewrite fmap_app, foldl_app.
      by rewrite unseen_seen.
Qed.

(** *** The bookkeeping of [seen_avs] *)

Lemma visit_annotation_inv mv st a :
  scan_inv w mv st → scan_inv w mv (visit_annotation w st a).
Proof.
  intros [H1 H2]. unfold visit_annotation. case_decide; [done|].
  split; simpl.
  - rewrite unseen_seen, list_to_set_app_L, H1.
    apply set_eq. intros x. rewrite !elem_of_union, !elem_of_list_to_set.
    rewrite unseen_elem, !elem_of_union, !elem_of_list_to_set.
    destruct (decide (x ∈ mv)), (decide (x ∈ scan_variables st)); naive_solver.
  - intros b av Hb Hav. rewrite unseen_seen.
    apply elem_of_union in Hb as [Hb|Hb].
    + apply elem_of_singleton in Hb as ->. set_solver.
    + specialize (H2 _ _ Hb Hav). set_solver.
Qed.

Lemma visit_annotations_inv mv l st :
  scan_inv w mv st → scan_inv w mv (foldl (visit_annotation w) st l).
Proof.
  revert st. induction l as [|a l IH]; intros st H; simpl; [done|].
  by apply IH, visit_annotation_inv.
Qed.

Lemma visit_var_inv mv st v :
  v ∈ mv → scan_inv w mv st → scan_inv w mv (visit_var w st v).
Proof.
  intros Hv [H1 H2]. apply visit_annotations_inv. split; simpl.
  - rewrite H1, list_to_set_app_L. set_solver.
  - done.
Qed.

Lemma visit_vars_inv mv l st :
  (∀ v, v ∈ l → v ∈ mv) → scan_inv w mv st →
  scan_inv w mv (foldl (visit_var w) st l).
Proof.
  revert st. induction l as [|v l IH]; intros st Hl H; simpl; [done|].
  apply IH; [set_solver|]. apply visit_var_inv; [set_solver|done].
Qed.

(** Every auxiliary variable of every store attached to a main-path
    variable is collected. *)
Lemma discover_auxiliary outs v a av :
  v ∈ main_vars sort_apply_nodes (theano w) outs →
  a ∈ annotations_of (theano w) v →
  av ∈ Annotation.auxiliary_variables (store w a) →
  av ∈ scan_variables (discover sort_apply_nodes w outs).
Proof.
  intros Hv Ha Hav.
  pose proof (main_vars_sublist outs) as Hsub.
  unfold discover in *.
  set (mv := main_vars sort_apply_nodes (theano w) outs) in *.
  set (st0 := mkScan ∅ (list_to_set mv) [] []) in *.
  assert (scan_inv w mv st0) as H0 by (split; simpl; set_solver).
  destruct (visit_vars_inv mv mv st0 (λ _ H, H) H0) as [H1 H2].
  destruct (visit_vars_seen mv st0) as [H3 _].
  assert (av ∈ seen_avs (foldl (visit_var w) st0 mv)) as Hin.
  { apply (H2 a); [|done]. rewrite H3. apply elem_of_union_r.
    apply elem_of_list_to_set, list_elem_of_bind. eauto. }
  rewrite H1 in Hin. apply elem_of_union in Hin as [Hin|Hin].
  - apply elem_of_list_to_set in Hin.
    by eapply elem_of_sublist.
  - by apply elem_of_list_to_set in Hin.
Qed.

(** *** Duplicates *)

Lemma visit_annotation_merged mv P st a :
  merged w mv P st → merged w mv P (visit_annotation w st a).
Proof.
  intros [Hinv (A & HA & HN & HA')].
  split; [by apply visit_annotation_inv|].
  destruct Hinv as [H1 _].
  unfold visit_annotation. case_decide; [by eauto|]. simpl.
  set (new := (unseen _ (seen_avs st)).1).
  assert (∀ x, x ∈ new → x ∉ mv ∧ x ∉ scan_variables st) as Hnew.
  { intros x Hx. apply unseen_elem in Hx as [_ Hx]. rewrite H1 in Hx.
    set_solver. }
  exists (A ++ new). split; [|split].
  - rewrite HA. by rewrite (assoc_L (++)).
  - apply NoDup_app. split; [done|]. split; [|apply unseen_NoDup].
    intros x Hx Hx'. apply Hnew in Hx' as [_ Hx']. apply Hx'.
    rewrite HA. set_solver.
  - intros x Hx. apply elem_of_app in Hx as [Hx|Hx]; [by apply HA'|].
    by apply Hnew.
Qed.

Lemma visit_annotations_merged mv P l st :
  merged w mv P st → merged w mv P (foldl (visit_annotation w) st l).
Proof.
  revert st. induction l as [|a l IH]; intros st H; simpl; [done|].
  by apply IH, visit_annotation_merged.
Qed.

Lemma visit_var_merged mv P st v :
  v ∈ mv → merged w mv P st → merged w mv (P ++ [v]) (visit_var w st v).
Proof.
  intros Hv [[H1 H2] (A & HA & HN & HA')].
  apply visit_annotations_merged. split; [split|]; simpl.
  - rewrite H1, list_to_set_app_L. set_solver.
  - done.
  - exists A. split; [|done]. rewrite HA.
    rewrite <-!(assoc_L (++)). f_equiv. apply Permutation_app_comm.
Qed.

Lemma visit_vars_merged mv P l st :
  (∀ v, v ∈ l → v ∈ mv) → merged w mv P st →
  merged w mv (P ++ l) (foldl (visit_var w) st l).
Proof.
  revert st P. induction l as [|v l IH]; intros st P Hl H; simpl.
  - by rewrite app_nil_r.
  - rewrite (assoc_L (++) P [v] l : P ++ v :: l = (P ++ [v]) ++ l).
    apply IH; [set_solver|]. apply visit_var_merged; [set_solver|done].
Qed.

(** The collected list has a duplicate exactly when the main path has. *)
Lemma discover_NoDup outs :
  NoDup (scan_variables (discover sort_apply_nodes w outs))
  ↔ NoDup (main_vars sort_apply_nodes (theano w) outs).
Proof.
  unfold discover.
  set (mv := main_vars sort_apply_nodes (theano w) outs).
  set (st0 := mkScan ∅ (list_to_set mv) [] []).
  assert (merged w mv [] st0) as H0.
  { split; [split; simpl; set_solver|]. exists []. simpl.
    split; [done|]. split; [constructor|set_solver]. }
  destruct (visit_vars_merged mv [] mv st0 (λ _ H, H) H0)
    as [_ (A & HA & HN & HA')].
  simpl in HA. rewrite HA, NoDup_app. naive_solver.
Qed.

Lemma main_vars_NoDup outs :
  NoDup (main_vars sort_apply_nodes (theano w) outs)
  ↔ NoDup outs
    ∧ ∀ o, o ∈ outs →
        o ∉ concat (Apply.inputs <$> sort_apply_nodes (theano w) outs).
Proof.
  unfold main_vars. rewrite NoDup_app. split.
  - intros (_ & H & Ho). split; [done|]. intros o Ho1 Ho2.
    apply (H o); [|done]. apply unseen_elem. set_solver.
  - intros [Ho H]. split; [apply unseen_NoDup|]. split; [|done].
    intros x Hx Hx'. apply unseen_elem in Hx as [Hx _]. by apply (H x).
Qed.
End DiscoveryFacts.

Example duplicate_variables :
  scan_variables (discover duplicate_sort duplicate_world [4; 3]%positive)
  = [1; 2; 3; 4; 3]%positive.
Proof. vm_compute. reflexivity. Qed.

Example example_discovery :
  let st := discover example_sort example_world [2%positive] in
  scan_variables st = [1; 3; 2; 4]%positive
  ∧ scan_updates st = [(5, 6); (7, 8)]%positive.
Proof. vm_compute. done. Qed.

Section DiscoveryClaims.
Variable sort_apply_nodes : Theano → list var → list Apply.t.

(** Claim C1, that [variables] never holds a node twice, fails on the
    code: the outputs are appended to the main path without being checked
    against the apply-node inputs collected before them.  Whenever a
    requested output is also an input of one of the sorted apply nodes, the
    [variables] list of the graph holds it twice. *)
Theorem output_among_inputs_is_duplicated (w : World) (outs : list var) (o : var) :
  o ∈ outs →
  o ∈ concat (Apply.inputs <$> sort_apply_nodes (theano w) outs) →
  ¬ NoDup (scan_variables (discover sort_apply_nodes w outs)).
Proof.
  intros Ho Hi. rewrite discover_NoDup, main_vars_NoDup.
  intros [_ H]. by apply (H o).
Qed.

(** Claim C4, amended.  The stores that contribute are the annotations of
    the main-path variables in order of first encounter, deduplicated by
    the identity of the store; its class is never consulted.  Each of them
    contributes once: [updates] is the union, in that order, of the
    updates of every store instance attached to a main-path variable, and
    every auxiliary variable of every such instance is in [variables]. *)
Theorem stores_deduplicated_by_identity (w : World) (outs : list var) :
  let mv := main_vars sort_apply_nodes (theano w) outs in
  let visited := (unseen (mv ≫= annotations_of (theano w)) ∅).1 in
  NoDup visited
  ∧ (∀ a, a ∈ visited ↔ ∃ v, v ∈ mv ∧ a ∈ annotations_of (theano w) v)
  ∧ scan_updates (discover sort_apply_nodes w outs)
    = foldl dict_union [] ((λ a, Annotation.updates (store w a)) <$> visited)
  ∧ ∀ v a av, v ∈ mv → a ∈ annotations_of (theano w) v →
      av ∈ Annotation.auxiliary_variables (store w a) →
      av ∈ scan_variables (discover sort_apply_nodes w outs).
Proof.
  intros mv visited. split_and!.
  - apply unseen_NoDup.
  - intros a. unfold visited. rewrite unseen_elem, list_elem_of_bind.
    set_solver.
  - unfold discover. fold mv.
    by destruct (visit_vars_seen w mv (mkScan ∅ (list_to_set mv) [] [])) as [_ ->].
  - intros v a av. apply discover_auxiliary.
Qed.
End DiscoveryClaims.

(** The graph of [test_computation_graph_variable_duplicate], built from
    [[z, w]]. *)
Lemma output_among_inputs_witness :
  (3%positive ∈ [4; 3]%positive)
  ∧ ¬ NoDup (scan_variables (discover duplicate_sort duplicate_world [4; 3]%positive)).
Proof.
  assert (3%positive ∈ [4; 3]%positive) as H by set_solver.
  split; [exact H|].
  apply (output_among_inputs_is_duplicated duplicate_sort duplicate_world
           [4; 3]%positive 3%positive H).
  vm_compute. set_solver.
Defined.

(** Against claim C4 as stated: in [example_world] the stores 1 and 2 are
    two instances of one class, attached to the main-path variables 1 and
    2, and the second one contributes its auxiliary variable 4 and its
    update of 7 all the same. *)
Lemma same_kind_stores_both_contribute :
  1%positive ≠ 2%positive
  ∧ Annotation.class (store example_world 1%positive)
    = Annotation.class (store example_world 2%positive)
  ∧ main_vars example_sort (theano example_world) [2%positive] = [1; 2]%positive
  ∧ annotations_of (theano example_world) 1%positive = [1%positive]
  ∧ annotations_of (theano example_world) 2%positive = [2%positive]
  ∧ Annotation.auxiliary_variables (store example_world 2%positive) = [4%positive]
  ∧ Annotation.updates (store example_world 2%positive) = [(7, 8)%positive]
  ∧ 4%positive ∈ scan_variables (discover example_sort example_world [2%positive])
  ∧ odict_lookup 7%positive
      (scan_updates (discover example_sort example_world [2%positive]))
    = Some 8%positive.
Proof. vm_compute. split_and!; try done. set_solver. Qed.

(** Both stores of [example_world] contribute their auxiliary variable. *)
Lemma stores_deduplicated_witness :
  (1%positive ∈ main_vars example_sort (theano example_world) [2%positive])
  ∧ (2%positive ∈ main_vars example_sort (theano example_world) [2%positive])
  ∧ 3%positive ∈ scan_variables (discover example_sort example_world [2%positive])
  ∧ 4%positive ∈ scan_variables (discover example_sort example_world [2%positive]).
Proof.
  assert (1%positive ∈ main_vars example_sort (theano example_world) [2%positive])
    as H1 by (vm_compute; set_solver).
  assert (2%positive ∈ main_vars example_sort (theano example_world) [2%positive])
    as H2 by (vm_compute; set_solver).
  destruct (stores_deduplicated_by_identity example_sort example_world [2%positive])
    as (_ & _ & _ & H).
  split_and!; [exact H1|exact H2| |].
  - apply (H 1%positive 1%positive 3%positive H1); vm_compute; set_solver.
  - apply (H 2%positive 2%positive 4%positive H2); vm_compute; set_solver.
Defined.

(** ** Attaching annotations *)

Lemma same_class_true w a l :
  same_class w a l = true
  ↔ ∃ old, old ∈ l ∧ Annotation.class (store w old) = Annotation.class (store w a).
Proof.
  unfold same_class. rewrite existsb_exists. split.
  - intros (old & Hin & H). exists old. split; [by apply list_elem_of_In|].
    by apply bool_decide_eq_true in H.
  - intros (old & Hin & H). exists old. split; [by apply list_elem_of_In|].
    by apply bool_decide_eq_true.
Qed.

Lemma add_annotation_raise w v a :
  same_class w a (annotations_of (theano w) v) = true →
  add_annotation v a w = Raise ValueError w.
Proof. intros H. unfold add_annotation, mbind, M_bind, gets. by rewrite H. Qed.

Lemma add_annotation_return w v a :
  same_class w a (annotations_of (theano w) v) = false →
  add_annotation v a w
  = Return tt (set_theano
      (set_annotations v (annotations_of (theano w) v ++ [a]) (theano w)) w).
Proof. intros H. unfold add_annotation, mbind, M_bind, gets. by rewrite H. Qed.

(** Claim C2.  Attaching an annotation to a node that carries one of the
    same class raises ([ValueError], the spec's DuplicateAnnotation) and
    leaves the store as it was; attaching one whose class is not yet on the
    node succeeds and appends it to the node's annotation list. *)
Theorem add_annotation_duplicate_kind (w : World) (v a : var) :
  (∀ old, old ∈ annotations_of (theano w) v →
     Annotation.class (store w old) = Annotation.class (store w a) →
     add_annotation v a w = Raise ValueError w)
  ∧ ((∀ old, old ∈ annotations_of (theano w) v →
        Annotation.class (store w old) ≠ Annotation.class (store w a)) →
     ∃ w', add_annotation v a w = Return tt w'
       ∧ annotations_of (theano w') v = annotations_of (theano w) v ++ [a]).
Proof.
  split.
  - intros old Hin Hc. apply add_annotation_raise, same_class_true. eauto.
  - intros Hne. eexists. split.
    + apply add_annotation_return. apply not_true_is_false.
      rewrite same_class_true. intros (old & Hin & Hc). by apply (Hne old).
    + simpl. unfold annotations_of at 1. by rewrite tag_set_annotations.
Qed.

(** On the variable 1 of [example_world], which carries the store 1: the
    store 2 has the same class, the store 3 has not. *)
Lemma add_annotation_witness :
  add_annotation 1%positive 2%positive example_world = Raise ValueError example_world
  ∧ ∃ w', add_annotation 1%positive 3%positive example_world = Return tt w'
      ∧ annotations_of (theano w') 1%positive = [1; 3]%positive.
Proof.
  destruct (add_annotation_duplicate_kind example_world 1%positive 2%positive)
    as [Hraise _].
  destruct (add_annotation_duplicate_kind example_world 1%positive 3%positive)
    as [_ Hreturn].
  split.
  - apply (Hraise 1%positive); [vm_compute; set_solver|reflexivity].
  - apply Hreturn. intros old Hold.
    assert (old = 1%positive) as ->
      by (vm_compute in Hold; by apply list_elem_of_singleton in Hold).
    vm_compute. discriminate.
Defined.

Section RolesFacts.
Variable role_insert : Role → list Role → list Role.

Lemma add_roles_loop (e : var) (rs : list Role) (w : World) :
  ∃ th', for_each (λ _ role, add_role role_insert e role) rs tt w
           = Return tt (set_theano th' w)
    ∧ var_name th' = var_name (theano w)
    ∧ tag_name (tag th' e) = tag_name (tag (theano w) e)
    ∧ annotations (tag th' e) = annotations (tag (theano w) e)
    ∧ roles_of th' e = foldl (λ l r, role_insert r l) (roles_of (theano w) e) rs
    ∧ (is_Some (roles (tag (theano w) e)) → is_Some (roles (tag th' e))).
Proof.
  revert w. induction rs as [|r rs IH]; intros w.
  - exists (theano w). by destruct w.
  - simpl. unfold mbind, M_bind, add_role at 1, modify_theano, modify.
    set (w1 := set_theano _ w).
    destruct (IH w1) as (th' & -> & H1 & H2 & H3 & H4 & H5).
    exists th'. split; [done|]. subst w1. simpl in *.
    rewrite tag_set_roles in H2, H3, H5. unfold roles_of at 2 in H4.
    rewrite tag_set_roles in H4. simpl in *. 
    repeat split; try done. intros _. apply H5. eauto.
Qed.

(** Claim C5.  [add_auxiliary_variable] raises when the expression
    carries an annotation of the store's class; otherwise it attaches the
    store to the expression, sets the name of the expression and of its tag
    when a name is given, passes [AUXILIARY] and then every caller-supplied
    role to [add_role], and appends the expression to the store's
    [auxiliary_variables] as its last element.  When [add_role] inserts the
    label and keeps the labels present, [AUXILIARY] and every supplied role
    are among the roles of the expression afterwards. *)
Theorem add_auxiliary_variable_spec (w : World) (self expression : var)
    (rs : option (list Role)) (name : option string) :
  ((∃ old, old ∈ annotations_of (theano w) expression
       ∧ Annotation.class (store w old) = Annotation.class (store w self)) →
     add_auxiliary_variable role_insert self expression rs name w
     = Raise ValueError w)
  ∧ ((∀ old, old ∈ annotations_of (theano w) expression →
        Annotation.class (store w old) ≠ Annotation.class (store w self)) →
     ∃ w', add_auxiliary_variable role_insert self expression rs name w
           = Return tt w'
       ∧ annotations_of (theano w') expression
         = annotations_of (theano w) expression ++ [self]
       ∧ var_name (theano w') !! expression
         = match name with
           | Some n => Some n
           | None => var_name (theano w) !! expression
           end
       ∧ tag_name (tag (theano w') expression)
         = match name with
           | Some n => Some n
           | None => tag_name (tag (theano w) expression)
           end
       ∧ roles (tag (theano w') expression)
         = Some (foldl (λ l r, role_insert r l)
                   (role_insert AUXILIARY (roles_of (theano w) expression))
                   (default [] rs))
       ∧ ((∀ r l, r ∈ role_insert r l) →
          (∀ r r' l, r' ∈ l → r' ∈ role_insert r l) →
          AUXILIARY ∈ roles_of (theano w') expression
          ∧ ∀ r, r ∈ default [] rs → r ∈ roles_of (theano w') expression)
       ∧ Annotation.auxiliary_variables (store w' self)
         = Annotation.auxiliary_variables (store w self) ++ [expression]
       ∧ Annotation.class (store w' self) = Annotation.class (store w self)
       ∧ Annotation.updates (store w' self) = Annotation.updates (store w self)).
Proof.
  split.
  - intros H. apply same_class_true, (add_annotation_raise _ expression) in H.
    unfold add_auxiliary_variable, mbind, M_bind. by rewrite H.
  - intros Hne.
    assert (same_class w self (annotations_of (theano w) expression) = false) as H.
    { apply not_true_is_false. rewrite same_class_true.
      intros (old & Hin & Hc). by apply (Hne old). }
    apply (add_annotation_return _ expression) in H.
    unfold add_auxiliary_variable, mbind, M_bind. rewrite H. clear H.
    set (th1 := set_annotations expression _ (theano w)).
    set (th2 := match name with
                | Some n => set_tag_name expression n (set_var_name expression n th1)
                | None => th1
                end).
    set (th3 := set_roles expression
                  (role_insert AUXILIARY (roles_of th2 expression)) th2).
    destruct (add_roles_loop expression (default [] rs) (set_theano th3 w))
      as (th4 & Hloop & H1 & H2 & H3 & H4 & H5).
    exists (set_store self
       (Annotation.mk (Annotation.class (store w self))
          (Annotation.auxiliary_variables (store w self) ++ [expression])
          (Annotation.updates (store w self))) (set_theano th4 w)).
    assert (roles_of th2 expression = roles_of (theano w) expression) as Hr2.
    { unfold roles_of, th2. destruct name.
      - rewrite tag_set_tag_name. simpl. rewrite tag_set_var_name.
        unfold th1. by rewrite tag_set_annotations.
      - unfold th1. by rewrite tag_set_annotations. }
    assert (annotations (tag th2 expression)
            = Some (annotations_of (theano w) expression ++ [self])) as Ha2.
    { unfold th2. destruct name.
      - rewrite tag_set_tag_name. simpl. rewrite tag_set_var_name.
        unfold th1. by rewrite tag_set_annotations.
      - unfold th1. by rewrite tag_set_annotations. }
    simpl in H1, H2, H3, H4, H5.
    unfold roles_of at 2 in H4.
    unfold th3 in H2, H3, H4, H5. rewrite tag_set_roles in H2, H3, H4, H5.
    simpl in H2, H3, H4, H5. rewrite Hr2 in H4.
    assert (roles (tag th4 expression) = Some (roles_of th4 expression)) as Hsome.
    { destruct H5 as [l Hl]; [by eauto|]. unfold roles_of. by rewrite Hl. }
    split; [|split_and!].
    + assert (match rs with
              | Some rs => for_each (λ _ role, add_role role_insert expression role) rs tt
              | None => mret tt
              end
              = for_each (λ _ role, add_role role_insert expression role)
                  (default [] rs) tt) as -> by (by destruct rs).
      etrans; [|exact (f_equal
        (λ o, match o with
              | Return _ w' =>
                  Return tt (set_store self
                    (Annotation.mk (Annotation.class (store w' self))
                       (Annotation.auxiliary_variables (store w' self) ++ [expression])
                       (Annotation.updates (store w' self))) w')
              | Raise e w' => Raise e w'
              end) Hloop)].
      by destruct name.
    + simpl. unfold annotations_of at 1. by rewrite H3, Ha2.
    + simpl. rewrite H1. unfold th3, th2, th1. destruct name; simpl; [|done].
      apply lookup_insert_eq.
    + simpl. rewrite H2. unfold th2. destruct name.
      * by rewrite tag_set_tag_name.
      * unfold th1. by rewrite tag_set_annotations.
    + simpl. by rewrite Hsome, H4.
    + intros Hin Hmono. simpl. rewrite H4. clear -Hin Hmono.
      generalize (roles_of (theano w) expression). intros l0. split.
      * induction (default [] rs) as [|r l IH] using rev_ind; simpl.
        -- apply Hin.
        -- rewrite foldl_snoc. by apply Hmono.
      * intros r Hr.
        induction (default [] rs) as [|r' l IH] using rev_ind;
          [by apply elem_of_nil in Hr|].
        rewrite foldl_snoc. apply elem_of_app in Hr as [Hr|Hr].
        -- by apply Hmono, IH.
        -- apply list_elem_of_singleton in Hr as ->. apply Hin.
    + unfold store. simpl. by rewrite lookup_total_insert_eq.
    + unfold store. simpl. by rewrite lookup_total_insert_eq.
    + unfold store. simpl. by rewrite lookup_total_insert_eq.
Qed.
End RolesFacts.

Lemma append_role_elem (r : Role) (l : list Role) : r ∈ append_role r l.
Proof. unfold append_role. case_decide; set_solver. Qed.

Lemma append_role_mono (r r' : Role) (l : list Role) : r' ∈ l → r' ∈ append_role r l.
Proof. unfold append_role. case_decide; set_solver. Qed.

(** The store 2 refuses the variable 3, annotated by the store 1 of the
    same class; the store 3 accepts the variable 6. *)
Lemma add_auxiliary_variable_witness :
  add_auxiliary_variable append_role 2%positive 3%positive None None example_world
  = Raise ValueError example_world
  ∧ ∃ w', add_auxiliary_variable append_role 3%positive 6%positive
            (Some ["COST"%string]) (Some "cost"%string) example_world
          = Return tt w'
      ∧ annotations_of (theano w') 6%positive = [3%positive]
      ∧ var_name (theano w') !! 6%positive = Some "cost"%string
      ∧ AUXILIARY ∈ roles_of (theano w') 6%positive
      ∧ "COST"%string ∈ roles_of (theano w') 6%positive
      ∧ Annotation.auxiliary_variables (store w' 3%positive) = [6%positive].
Proof.
  split.
  - apply (proj1 (add_auxiliary_variable_spec append_role example_world
                    2%positive 3%positive None None)).
    exists 1%positive. split; [vm_compute; set_solver|reflexivity].
  - destruct (proj2 (add_auxiliary_variable_spec append_role example_world
               3%positive 6%positive (Some ["COST"%string]) (Some "cost"%string)))
      as (w' & Hrun & Ha & Hn & _ & _ & Hroles & Haux & _).
    { intros old Hold. vm_compute in Hold. by apply elem_of_nil in Hold. }
    destruct (Hroles append_role_elem append_role_mono) as [Hr1 Hr2].
    exists w'. split_and!; try done.
    apply Hr2. simpl. set_solver.
Defined.

(** ** Graph objects *)

Section GraphFacts.
Variable sort_apply_nodes : Theano → list var → list Apply.t.
Variable is_graph_input : Theano → var → bool.
Variable theano_clone : list var → replacements → Theano → list var * Theano.

(** Discovery reads the Theano store and the annotation stores, never the
    graph objects. *)
Lemma discover_frame w1 w2 outs :
  theano w1 = theano w2 → stores w1 = stores w2 →
  discover sort_apply_nodes w1 outs = discover sort_apply_nodes w2 outs.
Proof. destruct w1, w2. simpl. by intros -> ->. Qed.

Lemma _get_variables_eq self w :
  _get_variables sort_apply_nodes self w
  = if forallb (has_owner (theano w)) (ComputationGraph.outputs (graph w self))
    then Return tt (set_graph self
      (let st := discover sort_apply_nodes w (ComputationGraph.outputs (graph w self)) in
       ComputationGraph.mk (ComputationGraph.outputs (graph w self))
         (scan_variables st) (scan_updates st)) w)
    else Raise AttributeError w.
Proof.
  unfold _get_variables, mbind, M_bind, gets.
  by destruct (forallb _ _).
Qed.

Lemma graph_set_graph g c w : graph (set_graph g c w) g = c.
Proof. unfold graph. simpl. apply lookup_total_insert_eq. Qed.

Lemma ComputationGraph__init__eq outs w :
  ComputationGraph__init__ sort_apply_nodes (VariableList outs) w
  = let g := fresh (dom (graphs w)) in
    if forallb (has_owner (theano w)) outs
    then
      let st := discover sort_apply_nodes w outs in
      Return g (set_graph g
        (ComputationGraph.mk outs (scan_variables st) (scan_updates st)) w)
    else Raise AttributeError (set_graph g (ComputationGraph.mk outs [] []) w).
Proof.
  unfold ComputationGraph__init__, mbind, M_bind. cbv beta iota zeta.
  rewrite _get_variables_eq. cbv beta iota zeta.
  rewrite graph_set_graph. simpl.
  destruct (forallb _ _); [|done].
  unfold set_graph. simpl. rewrite insert_insert_eq.
  by rewrite (discover_frame _ w).
Qed.

(** Claim C9 fails on the code for the input it names.  The constructor
    does treat a bare variable [x] as the list [[x]], but for a
    freestanding leaf, a variable without owner, both calls end in the
    [AttributeError] of line 90: no graph is built whose [inputs] could be
    compared, although [test_computation_graph] builds
    [ComputationGraph([W])] from a leaf and expects [variables == [W]]. *)
Theorem leaf_output_raises (w : World) (x : var) :
  owner (theano w) !! x = None →
  ∃ w', ComputationGraph__init__ sort_apply_nodes (OneVariable x) w
        = Raise AttributeError w'
    ∧ ComputationGraph__init__ sort_apply_nodes (VariableList [x]) w
      = Raise AttributeError w'
    ∧ theano w' = theano w ∧ stores w' = stores w.
Proof.
  intros Hx.
  change (ComputationGraph__init__ sort_apply_nodes (OneVariable x) w)
    with (ComputationGraph__init__ sort_apply_nodes (VariableList [x]) w).
  rewrite ComputationGraph__init__eq. cbv zeta.
  assert (forallb (has_owner (theano w)) [x] = false) as ->.
  { simpl. unfold has_owner. rewrite Hx. rewrite bool_decide_eq_false_2; [done|].
    by intros [? ?]. }
  by eexists.
Qed.

(** A variable with an owner is accepted in both forms, and the two calls
    are the same computation. *)
Lemma owned_output_is_wrapped (w : World) (x : var) :
  is_Some (owner (theano w) !! x) →
  ∃ g w', ComputationGraph__init__ sort_apply_nodes (OneVariable x) w = Return g w'
    ∧ ComputationGraph__init__ sort_apply_nodes (VariableList [x]) w = Return g w'
    ∧ ComputationGraph.outputs (graph w' g) = [x].
Proof.
  intros Hx.
  change (ComputationGraph__init__ sort_apply_nodes (OneVariable x) w)
    with (ComputationGraph__init__ sort_apply_nodes (VariableList [x]) w).
  rewrite ComputationGraph__init__eq. cbv zeta.
  assert (forallb (has_owner (theano w)) [x] = true) as ->.
  { simpl. unfold has_owner. by rewrite bool_decide_eq_true_2. }
  eexists _, _. split_and!; try done. by rewrite graph_set_graph.
Qed.

(** Claim C3.  Whether [replace] returns or the constructor it ends with
    raises, the graph object it makes did not exist before and differs
    from [self]; [self] and every other graph object keep their outputs,
    variables and updates, and no annotation store changes.  It returns
    whenever every output that [theano.clone] hands back has an owner, and
    raises [AttributeError] otherwise.  [theano.clone] acts on the Theano
    store only. *)
Theorem replace_leaves_graph_unchanged (w : World) (self : var)
    (r : replacements) (c : ComputationGraph.t) :
  graphs w !! self = Some c →
  ∃ g' w',
    (replace sort_apply_nodes theano_clone self r w = Return g' w'
     ∨ replace sort_apply_nodes theano_clone self r w = Raise AttributeError w')
    ∧ (forallb (has_owner (theano_clone (ComputationGraph.outputs c) r (theano w)).2)
         (theano_clone (ComputationGraph.outputs c) r (theano w)).1 = true →
       replace sort_apply_nodes theano_clone self r w = Return g' w')
    ∧ graphs w !! g' = None
    ∧ g' ≠ self
    ∧ is_Some (graphs w' !! g')
    ∧ graphs w' !! self = Some c
    ∧ (∀ g, g ≠ g' → graphs w' !! g = graphs w !! g)
    ∧ stores w' = stores w.
Proof.
  intros Hc. unfold replace, mbind, M_bind, gets, in_theano.
  rewrite ComputationGraph__init__eq. cbv zeta. cbn [fst snd theano set_theano graphs].
  assert (graph w self = c) as -> by (unfold graph; by rewrite (lookup_total_correct _ _ _ Hc)).
  set (g' := fresh (dom (graphs w))).
  assert (graphs w !! g' = None) as Hfresh.
  { apply not_elem_of_dom, is_fresh. }
  assert (g' ≠ self) as Hne by (intros ->; congruence).
  destruct (forallb _ _) eqn:Hsort.
  - eexists _, _. split; [by left|]. split; [done|]. simpl. split_and!; try done.
    + rewrite lookup_insert_eq. eauto.
    + by rewrite lookup_insert_ne.
    + intros g Hg. by rewrite lookup_insert_ne.
  - eexists _, _. split; [by right|]. split; [done|]. simpl. split_and!; try done.
    + rewrite lookup_insert_eq. eauto.
    + by rewrite lookup_insert_ne.
    + intros g Hg. by rewrite lookup_insert_ne.
Qed.
End GraphFacts.

(** On [duplicate_world] the variable 1 is a leaf. *)
Lemma leaf_output_witness :
  ∃ w', ComputationGraph__init__ duplicate_sort (OneVariable 1%positive) duplicate_world
        = Raise AttributeError w'
    ∧ ComputationGraph__init__ duplicate_sort (VariableList [1%positive]) duplicate_world
      = Raise AttributeError w'.
Proof.
  destruct (leaf_output_raises duplicate_sort duplicate_world 1%positive eq_refl)
    as (w' & H1 & H2 & _).
  by exists w'.
Defined.

(** Replacing nothing in the graph 1 of [example_world]. *)
Lemma replace_witness :
  ∃ g' w', replace example_sort example_clone 1%positive (ReplaceDict ∅) example_world
           = Return g' w'
    ∧ g' ≠ 1%positive
    ∧ graphs w' !! 1%positive = graphs example_world !! 1%positive.
Proof.
  destruct (replace_leaves_graph_unchanged example_sort example_clone example_world
              1%positive (ReplaceDict ∅)
              (ComputationGraph.mk [2%positive] [1; 3; 2; 4]%positive
                 [(5, 6); (7, 8)]%positive))
    as (g' & w' & _ & Hrun & _ & Hne & _ & Hsame & _).
  { reflexivity. }
  exists g', w'. split_and!; try done. apply Hrun. reflexivity.
Defined.

(** ** Compilation and noise *)

Section TransformFacts.
Variable sort_apply_nodes : Theano → list var → list Apply.t.
Variable is_graph_input : Theano → var → bool.
Variable theano_clone : list var → replacements → Theano → list var * Theano.
Variable default_seed : Z.

(** Claim C7.  The updates handed to [theano.function] map every key of
    the caller's additional updates to the caller's expression, and every
    other key as the graph's own updates do. *)
Theorem additional_updates_take_precedence (w : World) (self : var)
    (extra : odict) (k : var) :
  NoDup (ComputationGraph.updates (graph w self)).*1 →
  ∃ f, get_theano_function is_graph_input self (Some extra) w = Return f w
    ∧ fn_outputs f = ComputationGraph.outputs (graph w self)
    ∧ (∀ v, odict_lookup k (OrderedDict extra) = Some v →
            odict_lookup k (fn_updates f) = Some v)
    ∧ (odict_lookup k (OrderedDict extra) = None →
       odict_lookup k (fn_updates f)
       = odict_lookup k (ComputationGraph.updates (graph w self))).
Proof.
  intros Hd. eexists. split.
  { unfold get_theano_function, inputs, mbind, M_bind, gets, mret, M_ret.
    reflexivity. }
  cbn [fn_updates fn_outputs]. split; [done|].
  destruct extra as [|kv extra]; [by split|].
  rewrite odict_lookup_dict_union by done.
  rewrite (OrderedDict_items (OrderedDict _))
    by (apply odict_update_NoDup; constructor).
  split.
  - by intros v ->.
  - by intros ->.
Qed.

(** Claim C10.  With [seed] omitted ([None]) or equal to 0, [apply_noise]
    seeds its random stream with [config.default_seed]: the call is the one
    made with [default_seed] passed explicitly, so 0 cannot be chosen as a
    seed. *)
Theorem falsy_seed_is_default_seed (w : World) (g : var)
    (variables : list var) (level : float) (seed : option Z) :
  seed = None ∨ seed = Some 0 →
  apply_noise sort_apply_nodes theano_clone default_seed g variables level seed w
  = (repl ← noise_replacements (MRG_RandomStreams default_seed) variables level;
     replace sort_apply_nodes theano_clone g (ReplaceDict repl)) w
  ∧ apply_noise sort_apply_nodes theano_clone default_seed g variables level seed w
    = apply_noise sort_apply_nodes theano_clone default_seed g variables level
        (Some default_seed) w.
Proof.
  intros [-> | ->]; unfold apply_noise; simpl; (split; [done|]);
    by destruct (decide (default_seed = 0)) as [->|].
Qed.
End TransformFacts.

(** The graph 1 of [example_world] updates 5 by 6 and 7 by 8; the caller
    asks for 5 to be updated by 8. *)
Lemma additional_updates_witness :
  ∃ f, get_theano_function example_is_graph_input 1%positive
         (Some [(5, 8)%positive]) example_world = Return f example_world
    ∧ odict_lookup 5%positive (fn_updates f) = Some 8%positive
    ∧ odict_lookup 7%positive (fn_updates f) = Some 8%positive.
Proof.
  assert (NoDup (ComputationGraph.updates (graph example_world 1%positive)).*1) as Hd.
  { vm_compute. apply NoDup_cons. split; [set_solver|apply NoDup_singleton]. }
  destruct (additional_updates_take_precedence example_is_graph_input example_world
              1%positive [(5, 8)%positive] 5%positive Hd) as (f & Hrun & _ & H5 & _).
  destruct (additional_updates_take_precedence example_is_graph_input example_world
              1%positive [(5, 8)%positive] 7%positive Hd) as (f' & Hrun' & _ & _ & H7).
  assert (f' = f) as -> by congruence.
  exists f. split; [done|]. split.
  - by apply H5.
  - rewrite H7; reflexivity.
Defined.

(** With a default seed of 1, the seed 0 and no seed give the same call. *)
Lemma falsy_seed_witness :
  apply_noise example_sort example_clone 1 1%positive [1%positive] 1%float (Some 0)
    example_world
  = apply_noise example_sort example_clone 1 1%positive [1%positive] 1%float None
      example_world.
Proof.
  destruct (falsy_seed_is_default_seed example_sort example_clone 1 example_world
              1%positive [1%positive] 1%float (Some 0) (or_intror eq_refl))
    as [-> _].
  destruct (falsy_seed_is_default_seed example_sort example_clone 1 example_world
              1%positive [1%positive] 1%float None (or_introl eq_refl))
    as [-> _].
  reflexivity.
Defined.

(** ** Collecting parameters *)

Lemma foldl_add_shift (a b : Z) (l : list Z) :
  foldl Z.add (a + b) l = a + foldl Z.add b l.
Proof.
  revert b. induction l as [|x l IH]; intros b; cbn [foldl]; [done|].
  by rewrite <-IH, (assoc_L Z.add).
Qed.

Lemma sum_cons (x : Z) (l : list Z) : sum (x :: l) = x + sum l.
Proof.
  unfold sum. cbn [foldl]. rewrite (comm_L Z.add 0 x). apply foldl_add_shift.
Qed.

Lemma zip_cumsum (acc : Z) (l : list Z) :
  zip (acc :: cumsum_from acc (removelast l)) (cumsum_from acc l)
  = offsets_from acc l.
Proof.
  revert acc. induction l as [|s l IH]; intros acc; [done|].
  destruct l as [|s' l]; [done|].
  change (removelast (s :: s' :: l)) with (s :: removelast (s' :: l)).
  cbn [cumsum_from zip zip_with offsets_from]. f_equal. apply IH.
Qed.

Lemma collected_offsets (l : list Z) :
  zip (cumsum (0 :: removelast l)) (cumsum l) = offsets_from 0 l.
Proof. apply (zip_cumsum 0). Qed.

Lemma offsets_from_lookup (acc : Z) (l : list Z) (k : nat) (s : Z) :
  l !! k = Some s →
  offsets_from acc l !! k
  = Some (acc + sum (take k l), acc + sum (take k l) + s).
Proof.
  revert acc k. induction l as [|x l IH]; intros acc [|k] H; simplify_eq/=.
  - f_equal. f_equal; unfold sum; simpl; lia.
  - rewrite (IH _ _ H), sum_cons. f_equal. f_equal; lia.
Qed.

Lemma length_offsets_from (acc : Z) (l : list Z) :
  length (offsets_from acc l) = length l.
Proof. revert acc. induction l as [|x l IH]; intros acc; simpl; [done|]. by rewrite IH. Qed.

Lemma extends_refl th : extends th th.
Proof. by repeat split. Qed.

Lemma extends_trans th1 th2 th3 : extends th1 th2 → extends th2 th3 → extends th1 th3.
Proof.
  intros (H1 & H2 & H3 & H4 & H5) (G1 & G2 & G3 & G4 & G5).
  split_and!; try congruence; [set_solver|].
  intros v Hv. destruct (H5 v Hv) as [<- <-]. apply G5. set_solver.
Qed.

Lemma new_node_spec (o : Op) (ins : list var) (w : World) :
  ∃ v th', new_node o ins w = Return v (set_theano th' w)
    ∧ v ∉ vars (theano w) ∧ v ∈ vars th'
    ∧ extends (theano w) th'
    ∧ owner th' !! v = Some (Apply.mk o ins)
    ∧ var_tag th' = var_tag (theano w).
Proof.
  eexists _, _. split; [reflexivity|]. simpl.
  pose proof (is_fresh (vars (theano w))) as Hf.
  split_and!; try done; [set_solver| |apply lookup_insert_eq].
  split_and!; try done; [set_solver|].
  intros v Hv. split; [|done]. apply lookup_insert_ne. by intros <-.
Qed.

Lemma tag_of_extends th th' v : extends th th' → v ∈ vars th → tag_of th' v = tag_of th v.
Proof. intros (_ & _ & _ & _ & H) Hv. unfold tag_of. by destruct (H v Hv) as [_ ->]. Qed.

Lemma tag_extends th th' v : extends th th' → v ∈ vars th → tag th' v = tag th v.
Proof.
  intros H Hv. unfold tag. rewrite (tag_of_extends th th') by done.
  by destruct H as (_ & _ & -> & _).
Qed.

Lemma collect_values_loop (params : list var) (vals : list ndarray)
    (acc : list ndarray * list Z * list (list Z)) (w : World) :
  Forall2 (λ p a, value (theano w) !! p = Some a) params vals →
  for_each (λ (acc : list ndarray * list Z * list (list Z)) param,
      a ← get_value param;
      mret (acc.1.1 ++ [a], acc.1.2 ++ [size a], acc.2 ++ [shape a]))
    params acc w
  = Return (acc.1.1 ++ vals, acc.1.2 ++ (size <$> vals), acc.2 ++ (shape <$> vals)) w.
Proof.
  intros H. revert acc. induction H as [|p a params vals Hp _ IH]; intros acc.
  - simpl. rewrite !app_nil_r. by destruct acc as [[??]?].
  - cbn [for_each]. unfold mbind, M_bind, get_value at 1. rewrite Hp.
    cbv beta iota. unfold mret at 1, M_ret at 1. rewrite IH. cbn [fst snd].
    by rewrite !fmap_cons, <-!(assoc_L (++)).
Qed.

Lemma replace_slices_loop (buf : var)
    (items : list (var * (list Z * (Z * Z))))
    (repl : gmap var var) (w : World) :
  (∀ x, x ∈ items → x.1 ∈ vars (theano w)) →
  ∃ repl' th',
    for_each (λ (repl : gmap var var) (x : var * (list Z * (Z * Z))),
        sliced ← new_node (Subtensor x.2.2.1 x.2.2.2) [buf];
        new_param ← new_node (Reshape x.2.1) [sliced];
        modify_theano (λ th, set_var_tag new_param (tag_of th x.1) th);;
        mret (<[x.1 := new_param]> repl))
      items repl w
    = Return repl' (set_theano th' w)
    ∧ extends (theano w) th'
    ∧ (∀ p, p ∉ items.*1 → repl' !! p = repl !! p)
    ∧ ∀ k x, items !! k = Some x → x.1 ∉ (drop (S k) items).*1 →
        ∃ sl np, repl' !! x.1 = Some np
          ∧ np ∉ vars (theano w)
          ∧ owner th' !! np = Some (Apply.mk (Reshape x.2.1) [sl])
          ∧ owner th' !! sl = Some (Apply.mk (Subtensor x.2.2.1 x.2.2.2) [buf])
          ∧ var_tag th' !! np = Some (tag_of (theano w) x.1).
Proof.
  match goal with |- context [for_each ?b] => set (body := b) end.
  revert repl w. induction items as [|x items IH]; intros repl w Hin.
  - exists repl, (theano w). split; [by destruct w|].
    split; [apply extends_refl|]. split; [done|]. intros k x H. by destruct k.
  - cbn [for_each]. unfold mbind, M_bind. unfold body at 1.
    unfold mbind, M_bind. cbv beta.
    destruct (new_node_spec (Subtensor x.2.2.1 x.2.2.2) [buf] w)
      as (sl & th1 & -> & Hsl & Hsl' & He1 & Ho1 & Ht1).
    cbv beta iota.
    destruct (new_node_spec (Reshape x.2.1) [sl] (set_theano th1 w))
      as (np & th2 & -> & Hnp & Hnp' & He2 & Ho2 & Ht2).
    simpl in Hnp, He2, Ht2.
    unfold modify_theano, modify, mret, M_ret. cbv beta iota.
    set (th3 := set_var_tag np (tag_of th2 x.1) th2).
    change (set_theano _ (set_theano th2 (set_theano th1 w)))
      with (set_theano th3 w).
    assert (vars (theano w) ⊆ vars th2) as Hsub.
    { destruct He1 as [? _], He2 as [? _]. set_solver. }
    assert (np ∉ vars (theano w)) as Hnpw.
    { destruct He1 as [? _]. set_solver. }
    pose proof (extends_trans _ _ _ He1 He2) as He12.
    assert (extends (theano w) th3) as He3.
    { destruct He12 as (H1 & H2 & H3 & H4 & H5).
      split_and!; try done. intros v Hv. destruct (H5 v Hv) as [<- <-].
      split; [done|]. simpl. apply lookup_insert_ne. by intros <-. }
    destruct (IH (<[x.1 := np]> repl) (set_theano th3 w))
      as (repl' & th' & -> & He' & Hrest & Hk).
    { intros y Hy. simpl. destruct He3 as [? _].
      assert (y.1 ∈ vars (theano w)) by (apply Hin; set_solver). set_solver. }
    simpl in He', Hk.
    exists repl', th'. split; [done|]. split; [by eapply extends_trans|].
    split.
    + intros p Hp. rewrite fmap_cons in Hp.
      rewrite Hrest by set_solver. apply lookup_insert_ne. set_solver.
    + intros [|k] y Hy Hlast; simplify_eq/=.
      * exists sl, np. destruct He' as (_ & _ & _ & _ & He').
        rewrite Hrest by done. rewrite lookup_insert_eq.
        destruct (He' np Hnp') as [-> ->].
        destruct (He' sl) as [-> _]; [by destruct He2 as [? _]; set_solver|].
        destruct He2 as (_ & _ & _ & _ & He2).
        destruct (He2 sl Hsl') as [Hosl _].
        split_and!; try done.
        -- simpl. by rewrite Hosl.
        -- simpl. rewrite lookup_insert_eq. f_equal.
           apply (tag_of_extends (theano w)); [done|].
           apply Hin. set_solver.
      * destruct (Hk k y Hy Hlast) as (sl' & np' & H1 & H2 & H3 & H4 & H5).
        exists sl', np'. split_and!; try done.
        -- destruct He3 as [? _]. set_solver.
        -- rewrite H5. f_equal. apply tag_of_extends; [done|].
           apply Hin. apply list_elem_of_lookup_2 in Hy. set_solver.
Qed.

Section CollectFacts.
Variable sort_apply_nodes : Theano → list var → list Apply.t.
Variable theano_clone : list var → replacements → Theano → list var * Theano.

(** Claim C6, amended.  For parameters that are shared variables,
    [collect_parameters] makes one new shared variable, named
    [collected_params], holding a vector whose length is the sum of the
    parameter sizes, and changes no other container.  A parameter at
    position [k] that does not occur again later in the list is replaced by
    the slice of the buffer from the sum of the sizes before [k] to that
    sum plus its own size, reshaped to its shape; the replacement shares
    the parameter's tag, hence its roles and annotations. *)
Theorem collect_parameters_slices (w : World) (g : var)
    (params : list var) (vals : list ndarray) :
  Forall2 (λ p a, p ∈ vars (theano w) ∧ value (theano w) !! p = Some a)
    params vals →
  ∃ buf repl w',
    collected_replacements params w = Return (buf, repl) w'
    ∧ collect_parameters sort_apply_nodes theano_clone g params w
      = replace sort_apply_nodes theano_clone g (ReplaceDict repl) w'
    ∧ buf ∉ vars (theano w)
    ∧ value (theano w')
      = <[buf := mkArray [sum (size <$> vals)]]> (value (theano w))
    ∧ var_name (theano w') !! buf = Some "collected_params"%string
    ∧ tags (theano w') = tags (theano w)
    ∧ stores w' = stores w ∧ graphs w' = graphs w
    ∧ ∀ k p a, params !! k = Some p → vals !! k = Some a →
        p ∉ drop (S k) params →
        ∃ sl np, repl !! p = Some np
          ∧ np ∉ vars (theano w)
          ∧ owner (theano w') !! np = Some (Apply.mk (Reshape (shape a)) [sl])
          ∧ owner (theano w') !! sl
            = Some (Apply.mk
                (Subtensor (sum (size <$> take k vals))
                           (sum (size <$> take k vals) + size a)) [buf])
          ∧ tag_of (theano w') np = tag_of (theano w) p
          ∧ roles_of (theano w') np = roles_of (theano w) p
          ∧ annotations_of (theano w') np = annotations_of (theano w) p.
Proof.
  intros Hpv.
  assert (Forall2 (λ p a, value (theano w) !! p = Some a) params vals) as Hv.
  { eapply Forall2_impl; [exact Hpv|]. by intros ?? [_ ?]. }
  assert (∀ p, p ∈ params → p ∈ vars (theano w)) as Hin.
  { intros p Hp. apply list_elem_of_lookup_1 in Hp as [i Hp].
    by destruct (Forall2_lookup_l _ _ _ _ _ Hpv Hp) as (a & _ & ? & _). }
  pose proof (Forall2_length _ _ _ Hpv) as Hlen.
  assert (length params ≤ length (zip (shape <$> vals)
                                    (offsets_from 0 (size <$> vals))))%nat
    as Hlen'.
  { rewrite length_zip, length_offsets_from, !length_fmap. lia. }
  set (buf := fresh (vars (theano w))).
  set (items := zip params (zip (shape <$> vals)
                  (offsets_from 0 (size <$> vals)))).
  set (th0 := set_var_name buf "collected_params"
                (new_variable None (Some (mkArray [sum (size <$> vals)]))
                   (theano w)).2).
  destruct (replace_slices_loop buf items ∅ (set_theano th0 w))
    as (repl & th' & Hloop & He & _ & Hk).
  { intros x Hx. simpl. apply elem_of_union_r, Hin.
    apply (list_elem_of_fmap_2 fst) in Hx. unfold items in Hx.
    by rewrite fst_zip in Hx. }
  assert (collected_replacements params w
          = Return (buf, repl) (set_theano th' w)) as Hrun.
  { unfold collected_replacements. unfold mbind at 1, M_bind at 1.
    rewrite (collect_values_loop params vals) by done. cbn [fst snd app].
    rewrite collected_offsets.
    unfold mbind at 1, M_bind at 1. unfold shared_floatx_zeros, in_theano.
    unfold mbind at 1, M_bind at 1, modify_theano at 1, modify at 1.
    unfold mbind at 1, M_bind at 1.
    etrans; [|exact (f_equal (λ o, match o with
                                   | Return r w' => Return (buf, r) w'
                                   | Raise e w' => Raise e w'
                                   end) Hloop)].
    reflexivity. }
  exists buf, repl, (set_theano th' w).
  destruct He as (Hvars & Hval & Htags & Hname & Hold).
  split; [done|]. split.
  { unfold collect_parameters, mbind, M_bind. by rewrite Hrun. }
  split; [apply is_fresh|]. split; [simpl; by rewrite Hval|].
  split; [simpl; rewrite Hname; apply lookup_insert_eq|].
  split; [simpl; by rewrite Htags|]. split; [done|]. split; [done|].
  intros k p a Hp Ha Hlast.
  assert (items !! k = Some (p, (shape a,
            (sum (size <$> take k vals), sum (size <$> take k vals) + size a))))
    as Hitem.
  { unfold items. rewrite !lookup_zip_with. rewrite Hp. simpl.
    rewrite list_lookup_fmap, Ha. simpl.
    rewrite (offsets_from_lookup 0 _ k (size a))
      by (by rewrite list_lookup_fmap, Ha).
    simpl. by rewrite fmap_take. }
  destruct (Hk k _ Hitem) as (sl & np & H1 & H2 & H3 & H4 & H5).
  { cbn [fst]. rewrite fmap_drop. unfold items. by rewrite fst_zip. }
  simpl in H1, H2, H3, H4, H5.
  assert (tag_of th' np = tag_of (theano w) p) as Htag.
  { unfold tag_of at 1. rewrite H5. done. }
  assert (tag th' np = tag (theano w) p) as Htag'.
  { unfold tag. by rewrite Htag, Htags. }
  exists sl, np. split_and!; try done.
  - set_solver.
  - unfold roles_of. simpl. by rewrite Htag'.
  - unfold annotations_of. simpl. by rewrite Htag'.
Qed.
End CollectFacts.

(** The shared variables 5 (shape 2 by 3) and 7 (shape 4) of
    [example_world]. *)
Lemma collect_parameters_witness :
  ∃ buf repl w' sl np,
    collected_replacements [5; 7]%positive example_world = Return (buf, repl) w'
    ∧ value (theano w') !! buf = Some (mkArray [10])
    ∧ repl !! 7%positive = Some np
    ∧ owner (theano w') !! np = Some (Apply.mk (Reshape [4]) [sl])
    ∧ owner (theano w') !! sl = Some (Apply.mk (Subtensor 6 10) [buf]).
Proof.
  destruct (collect_parameters_slices example_sort example_clone example_world
              1%positive [5; 7]%positive [mkArray [2; 3]; mkArray [4]])
    as (buf & repl & w' & Hrun & _ & _ & Hval & _ & _ & _ & _ & Hk).
  { repeat constructor; vm_compute; set_solver. }
  destruct (Hk 1%nat 7%positive (mkArray [4])) as (sl & np & H1 & _ & H3 & H4 & _).
  { reflexivity. } { reflexivity. } { simpl. set_solver. }
  exists buf, repl, w', sl, np. split_and!; try done.
  rewrite Hval. apply lookup_insert_eq.
Defined.

(** Against claim C6 as stated: a parameter of 6 elements listed twice is
    replaced by the slice from 6 to 12 of the buffer, not by the slice
    from 0 to 6 that the first position would give. *)
Lemma repeated_parameter_takes_last_slice :
  ∃ buf repl w' sl np,
    collected_replacements [5; 5]%positive example_world = Return (buf, repl) w'
    ∧ repl !! 5%positive = Some np
    ∧ owner (theano w') !! np = Some (Apply.mk (Reshape [2; 3]) [sl])
    ∧ owner (theano w') !! sl = Some (Apply.mk (Subtensor 6 12) [buf])
    ∧ Subtensor 6 12 ≠ Subtensor 0 6.
Proof.
  pose (o := collected_replacements [5; 5]%positive example_world).
  assert (collected_replacements [5; 5]%positive example_world = o) as Ho
    by reflexivity.
  vm_compute in o.
  eexists _, _, _, _, _. split; [exact Ho|].
  split; [vm_compute; reflexivity|].
  split; [vm_compute; reflexivity|].
  split; [vm_compute; reflexivity|].
  discriminate.
Qed.

(** * Further properties *)

(** ** More on the discovery pass *)

Section DiscoveryExtras.
Variable sort_apply_nodes : Theano → list var → list Apply.t.

Lemma unseen_sublist (l : list var) (s : gset var) : (unseen l s).1 `sublist_of` l.
Proof.
  revert s. induction l as [|x l IH]; intros s; simpl; [done|].
  case_decide; simpl.
  - by apply sublist_cons.
  - by apply sublist_skip.
Qed.

Lemma elem_of_concat (x : var) (ls : list (list var)) :
  x ∈ concat ls ↔ ∃ l, l ∈ ls ∧ x ∈ l.
Proof.
  induction ls as [|l ls IH]; simpl.
  - split; [by intros ?%elem_of_nil|]. by intros (l & ?%elem_of_nil & _).
  - rewrite elem_of_app, IH. split.
    + intros [?|(l' & ? & ?)]; [exists l|exists l']; set_solver.
    + intros (l' & [->|?]%elem_of_cons & ?); [by left|right; by exists l'].
Qed.

(** X1.  The main path is a subsequence of [variables]: every requested
    output, consumed or not, and every input of every sorted apply node is
    in [variables], in main-path order. *)
Theorem main_path_in_variables (w : World) (outs : list var) :
  main_vars sort_apply_nodes (theano w) outs
    `sublist_of` scan_variables (discover sort_apply_nodes w outs)
  ∧ (∀ o, o ∈ outs → o ∈ scan_variables (discover sort_apply_nodes w outs))
  ∧ ∀ a v, a ∈ sort_apply_nodes (theano w) outs → v ∈ Apply.inputs a →
      v ∈ scan_variables (discover sort_apply_nodes w outs).
Proof.
  pose proof (main_vars_sublist sort_apply_nodes w outs) as Hsub.
  split; [done|]. split.
  - intros o Ho. eapply elem_of_sublist; [|exact Hsub].
    unfold main_vars. set_solver.
  - intros a v Ha Hv. eapply elem_of_sublist; [|exact Hsub].
    unfold main_vars. apply elem_of_app. left. apply unseen_elem.
    split; [|set_solver]. apply elem_of_concat. exists (Apply.inputs a).
    split; [|done]. by apply list_elem_of_fmap_2.
Qed.

Lemma visit_annotation_origin (w : World) (Q : var → Prop) st a :
  (∀ x, x ∈ Annotation.auxiliary_variables (store w a) → Q x) →
  (∀ x, x ∈ scan_variables st → Q x) →
  ∀ x, x ∈ scan_variables (visit_annotation w st a) → Q x.
Proof.
  intros Ha Hst x. unfold visit_annotation. case_decide; [by auto|]. simpl.
  rewrite elem_of_app, unseen_elem. naive_solver.
Qed.

Lemma visit_annotations_origin (w : World) (Q : var → Prop) l st :
  (∀ a x, a ∈ l → x ∈ Annotation.auxiliary_variables (store w a) → Q x) →
  (∀ x, x ∈ scan_variables st → Q x) →
  ∀ x, x ∈ scan_variables (foldl (visit_annotation w) st l) → Q x.
Proof.
  revert st. induction l as [|a l IH]; intros st Hl Hst; simpl; [done|].
  apply IH; [set_solver|]. apply visit_annotation_origin; [|done].
  intros x Hx. apply (Hl a); [set_solver|done].
Qed.

Lemma visit_vars_origin (w : World) (Q : var → Prop) l st :
  (∀ v, v ∈ l → Q v) →
  (∀ v a x, v ∈ l → a ∈ annotations_of (theano w) v →
     x ∈ Annotation.auxiliary_variables (store w a) → Q x) →
  (∀ x, x ∈ scan_variables st → Q x) →
  ∀ x, x ∈ scan_variables (foldl (visit_var w) st l) → Q x.
Proof.
  revert st. induction l as [|v l IH]; intros st Hl Ha Hst; simpl; [done|].
  apply IH; [set_solver| |].
  { intros v' a x Hv'. apply (Ha v' a x). set_solver. }
  unfold visit_var. apply visit_annotations_origin.
  - intros a x ??. apply (Ha v a); [set_solver|done..].
  - simpl. intros x. rewrite elem_of_app, list_elem_of_singleton.
    intros [?| ->]; [by auto|]. apply Hl. set_solver.
Qed.

(** X2.  Nothing else enters [variables]: each of its elements is on the
    main path or is an auxiliary variable of a store attached to a
    main-path variable.  Stores attached only to auxiliary variables are
    not followed. *)
Theorem variables_origin (w : World) (outs : list var) (x : var) :
  x ∈ scan_variables (discover sort_apply_nodes w outs) →
  x ∈ main_vars sort_apply_nodes (theano w) outs
  ∨ ∃ v a, v ∈ main_vars sort_apply_nodes (theano w) outs
      ∧ a ∈ annotations_of (theano w) v
      ∧ x ∈ Annotation.auxiliary_variables (store w a).
Proof.
  unfold discover. revert x.
  set (mv := main_vars sort_apply_nodes (theano w) outs).
  apply (visit_vars_origin w
    (λ x, x ∈ mv ∨ ∃ v a, v ∈ mv ∧ a ∈ annotations_of (theano w) v
                    ∧ x ∈ Annotation.auxiliary_variables (store w a))).
  - by left.
  - intros v a y ???. right. by exists v, a.
  - simpl. intros y Hy. by apply elem_of_nil in Hy.
Qed.

(** X3.  [variables] is the main path together with auxiliary variables
    that are pairwise distinct and none of which is on the main path: an
    auxiliary variable shared by several stores, or already on the main
    path, is not scheduled again. *)
Theorem variables_decomposition (w : World) (outs : list var) :
  ∃ A, scan_variables (discover sort_apply_nodes w outs)
         ≡ₚ main_vars sort_apply_nodes (theano w) outs ++ A
    ∧ NoDup A
    ∧ ∀ x, x ∈ A → x ∉ main_vars sort_apply_nodes (theano w) outs.
Proof.
  unfold discover.
  set (mv := main_vars sort_apply_nodes (theano w) outs).
  set (st0 := mkScan ∅ (list_to_set mv) [] []).
  assert (merged w mv [] st0) as H0.
  { split; [split; simpl; set_solver|]. exists []. simpl.
    split; [done|]. split; [constructor|set_solver]. }
  by destruct (visit_vars_merged w mv [] mv st0 (λ _ H, H) H0) as [_ H].
Qed.

(** X4.  [variables] is free of duplicates exactly when the requested
    outputs are pairwise distinct and none of them is an input of a sorted
    apply node. *)
Theorem variables_NoDup_iff (w : World) (outs : list var) :
  NoDup (scan_variables (discover sort_apply_nodes w outs))
  ↔ NoDup outs
    ∧ ∀ o, o ∈ outs →
        o ∉ concat (Apply.inputs <$> sort_apply_nodes (theano w) outs).
Proof. by rewrite discover_NoDup, main_vars_NoDup. Qed.

(** X5.  When no main-path variable carries an annotation, [variables]
    is the main path itself and [updates] is empty. *)
Theorem discovery_without_annotations (w : World) (outs : list var) :
  (∀ v, v ∈ main_vars sort_apply_nodes (theano w) outs →
     annotations_of (theano w) v = []) →
  scan_variables (discover sort_apply_nodes w outs)
  = main_vars sort_apply_nodes (theano w) outs
  ∧ scan_updates (discover sort_apply_nodes w outs) = [].
Proof.
  intros Hno. unfold discover.
  set (mv := main_vars sort_apply_nodes (theano w) outs) in *.
  generalize (list_to_set mv : gset var). intros s.
  assert (∀ l st, (∀ v, v ∈ l → annotations_of (theano w) v = []) →
            foldl (visit_var w) st l
            = mkScan (seen st) (seen_avs st) (scan_variables st ++ l) (scan_updates st))
    as Hfold.
  { induction l as [|v l IH]; intros st Hl; simpl.
    - rewrite app_nil_r. by destruct st.
    - rewrite IH by set_solver. unfold visit_var.
      rewrite (Hl v) by set_solver. simpl. by rewrite <-(assoc_L (++)). }
  by rewrite Hfold.
Qed.
End DiscoveryExtras.

(** ** More on the attacher *)

Lemma add_annotation_inv (w w' : World) (v a : var) :
  add_annotation v a w = Return tt w' →
  same_class w a (annotations_of (theano w) v) = false
  ∧ w' = set_theano
           (set_annotations v (annotations_of (theano w) v ++ [a]) (theano w)) w.
Proof.
  intros H. destruct (same_class w a (annotations_of (theano w) v)) eqn:E.
  - by rewrite add_annotation_raise in H.
  - rewrite add_annotation_return in H by done. by injection H as <-.
Qed.

Lemma tag_set_annotations_other th v l u :
  tag_of th u ≠ tag_of th v → tag (set_annotations v l th) u = tag th u.
Proof.
  intros H. unfold set_annotations. rewrite tag_set_tag. by rewrite decide_False.
Qed.

Lemma tag_set_annotations_alias th v l u :
  tag_of th u = tag_of th v →
  tag (set_annotations v l th) u
  = mkTag (tag_name (tag th v)) (Some l) (roles (tag th v)).
Proof.
  intros H. unfold set_annotations. rewrite tag_set_tag. by rewrite decide_True.
Qed.

Lemma annotations_of_set_annotations th v l :
  annotations_of (set_annotations v l th) v = l.
Proof. unfold annotations_of. by rewrite tag_set_annotations. Qed.

(** X6.  An [add_annotation] that returns changes one annotation list and
    nothing else: stores, graphs, names, owners, containers, the name and
    roles of every tag and the annotations of every variable with another
    tag are as before. *)
Theorem add_annotation_changes_one_list (w w' : World) (v a : var) :
  add_annotation v a w = Return tt w' →
  stores w' = stores w ∧ graphs w' = graphs w
  ∧ vars (theano w') = vars (theano w)
  ∧ var_name (theano w') = var_name (theano w)
  ∧ var_tag (theano w') = var_tag (theano w)
  ∧ owner (theano w') = owner (theano w)
  ∧ value (theano w') = value (theano w)
  ∧ (∀ u, tag_name (tag (theano w') u) = tag_name (tag (theano w) u)
          ∧ roles (tag (theano w') u) = roles (tag (theano w) u))
  ∧ ∀ u, tag_of (theano w) u ≠ tag_of (theano w) v →
      annotations_of (theano w') u = annotations_of (theano w) u.
Proof.
  intros [_ ->]%add_annotation_inv. split_and!; try done.
  - intros u. simpl.
    destruct (decide (tag_of (theano w) u = tag_of (theano w) v)) as [E|E].
    + rewrite tag_set_annotations_alias by done. simpl.
      unfold tag. by rewrite E.
    + by rewrite tag_set_annotations_other.
  - intros u Hu. unfold annotations_of. simpl.
    by rewrite tag_set_annotations_other.
Qed.

(** X7.  The annotation is attached to the tag object, so every variable
    sharing the tag of [v] (as a collected parameter and its replacement
    do) carries it afterwards. *)
Theorem add_annotation_reaches_shared_tag (w w' : World) (v a u : var) :
  add_annotation v a w = Return tt w' →
  tag_of (theano w) u = tag_of (theano w) v →
  annotations_of (theano w') u = annotations_of (theano w) u ++ [a].
Proof.
  intros [_ ->]%add_annotation_inv Hu. unfold annotations_of at 1. simpl.
  rewrite tag_set_annotations_alias by done. simpl.
  unfold annotations_of, tag. by rewrite Hu.
Qed.

(** X8.  [add_annotation] keeps the classes of the annotations of a
    variable pairwise distinct. *)
Theorem add_annotation_keeps_classes_distinct (w w' : World) (v a : var) :
  NoDup ((λ b, Annotation.class (store w b)) <$> annotations_of (theano w) v) →
  add_annotation v a w = Return tt w' →
  NoDup ((λ b, Annotation.class (store w' b)) <$> annotations_of (theano w') v).
Proof.
  intros Hnd Hrun. pose proof Hrun as [Hsc ->]%add_annotation_inv.
  change (theano (set_theano ?th _)) with th.
  rewrite annotations_of_set_annotations.
  change (λ b, Annotation.class (store (set_theano _ w) b))
    with (λ b, Annotation.class (store w b)).
  rewrite fmap_app. apply NoDup_app. split; [done|]. split; [|apply NoDup_singleton].
  intros c Hc Hc'. apply list_elem_of_singleton in Hc' as ->.
  apply list_elem_of_fmap in Hc as (old & Hcls & Hold).
  assert (same_class w a (annotations_of (theano w) v) = true) as Htrue.
  { apply same_class_true. by exists old. }
  congruence.
Qed.

Lemma tag_set_roles_other th v l u :
  tag_of th u ≠ tag_of th v → tag (set_roles v l th) u = tag th u.
Proof. intros H. unfold set_roles. rewrite tag_set_tag. by rewrite decide_False. Qed.

Lemma tag_set_tag_name_other th v n u :
  tag_of th u ≠ tag_of th v → tag (set_tag_name v n th) u = tag th u.
Proof. intros H. unfold set_tag_name. rewrite tag_set_tag. by rewrite decide_False. Qed.

Section StoreExtras.
Variable role_insert : Role → list Role → list Role.

(** What the loop over the caller's roles leaves untouched. *)
Lemma add_roles_loop_frame (e : var) (rs : list Role) (w : World) :
  ∃ th', for_each (λ _ role, add_role role_insert e role) rs tt w
           = Return tt (set_theano th' w)
    ∧ vars th' = vars (theano w)
    ∧ var_tag th' = var_tag (theano w)
    ∧ owner th' = owner (theano w)
    ∧ value th' = value (theano w)
    ∧ annotations (tag th' e) = annotations (tag (theano w) e)
    ∧ roles_of th' e = foldl (λ l r, role_insert r l) (roles_of (theano w) e) rs
    ∧ (is_Some (roles (tag (theano w) e)) → is_Some (roles (tag th' e)))
    ∧ ∀ u, tag_of (theano w) u ≠ tag_of (theano w) e → tag th' u = tag (theano w) u.
Proof.
  revert w. induction rs as [|r rs IH]; intros w.
  - exists (theano w). by destruct w.
  - simpl. unfold mbind, M_bind, add_role at 1, modify_theano, modify.
    set (w1 := set_theano _ w).
    destruct (IH w1) as (th' & -> & H1 & H2 & H3 & H4 & H5 & H6 & H7 & H8).
    exists th'. split; [done|]. subst w1. simpl in *.
    rewrite tag_set_roles in H5, H7. unfold roles_of at 2 in H6.
    rewrite tag_set_roles in H6. simpl in *.
    split_and!; try done.
    + intros _. apply H7. eauto.
    + intros u Hu. rewrite H8 by done. by apply tag_set_roles_other.
Qed.

(** What a call that returns has done. *)
Lemma add_auxiliary_variable_inv (w w1 : World) (self expression : var)
    (rs : option (list Role)) (name : option string) :
  add_auxiliary_variable role_insert self expression rs name w = Return tt w1 →
  same_class w self (annotations_of (theano w) expression) = false
  ∧ stores w1
    = <[self := Annotation.mk (Annotation.class (store w self))
                  (Annotation.auxiliary_variables (store w self) ++ [expression])
                  (Annotation.updates (store w self))]> (stores w)
  ∧ graphs w1 = graphs w
  ∧ vars (theano w1) = vars (theano w)
  ∧ var_tag (theano w1) = var_tag (theano w)
  ∧ owner (theano w1) = owner (theano w)
  ∧ value (theano w1) = value (theano w)
  ∧ annotations_of (theano w1) expression
    = annotations_of (theano w) expression ++ [self]
  ∧ roles (tag (theano w1) expression)
    = Some (foldl (λ l r, role_insert r l)
              (role_insert AUXILIARY (roles_of (theano w) expression))
              (default [] rs))
  ∧ ∀ u, tag_of (theano w) u ≠ tag_of (theano w) expression →
      tag (theano w1) u = tag (theano w) u.
Proof.
  intros Hrun.
  destruct (same_class w self (annotations_of (theano w) expression)) eqn:Hsc.
  { apply (add_annotation_raise _ expression) in Hsc.
    unfold add_auxiliary_variable, mbind, M_bind in Hrun. by rewrite Hsc in Hrun. }
  split; [done|].
  pose proof (add_annotation_return _ expression _ Hsc) as H.
  unfold add_auxiliary_variable, mbind, M_bind in Hrun. rewrite H in Hrun. clear H.
  set (th1 := set_annotations expression
                (annotations_of (theano w) expression ++ [self]) (theano w)) in *.
  set (th2 := match name with
              | Some n => set_tag_name expression n (set_var_name expression n th1)
              | None => th1
              end).
  set (th3 := set_roles expression
                (role_insert AUXILIARY (roles_of th2 expression)) th2).
  destruct (add_roles_loop_frame expression (default [] rs) (set_theano th3 w))
    as (th4 & Hloop & H1 & H2 & H3 & H4 & H5 & H6 & H7 & H8).
  assert (w1 = set_store self
         (Annotation.mk (Annotation.class (store w self))
            (Annotation.auxiliary_variables (store w self) ++ [expression])
            (Annotation.updates (store w self))) (set_theano th4 w)) as ->.
  { assert (match rs with
            | Some rs => for_each (λ _ role, add_role role_insert expression role) rs tt
            | None => mret tt
            end
            = for_each (λ _ role, add_role role_insert expression role)
                (default [] rs) tt) as Hrs by (by destruct rs).
    rewrite Hrs in Hrun.
    assert (Return tt w1 = Return tt (set_store self
         (Annotation.mk (Annotation.class (store w self))
            (Annotation.auxiliary_variables (store w self) ++ [expression])
            (Annotation.updates (store w self))) (set_theano th4 w))) as Heq.
    { rewrite <-Hrun.
      etrans; [|exact (f_equal
        (λ o, match o with
              | Return _ w' =>
                  Return tt (set_store self
                    (Annotation.mk (Annotation.class (store w' self))
                       (Annotation.auxiliary_variables (store w' self) ++ [expression])
                       (Annotation.updates (store w' self))) w')
              | Raise e w' => Raise e w'
              end) Hloop)].
      by destruct name. }
    by injection Heq. }
  assert (tag th2 expression
          = mkTag (match name with Some n => Some n
                   | None => tag_name (tag (theano w) expression) end)
              (Some (annotations_of (theano w) expression ++ [self]))
              (roles (tag (theano w) expression))) as Ht2.
  { unfold th2. destruct name.
    - rewrite tag_set_tag_name. simpl. rewrite tag_set_var_name.
      unfold th1. by rewrite tag_set_annotations.
    - unfold th1. by rewrite tag_set_annotations. }
  assert (∀ u, tag_of (theano w) u ≠ tag_of (theano w) expression →
               tag th3 u = tag (theano w) u) as Hother.
  { intros u Hu. unfold th3. rewrite tag_set_roles_other by (by destruct name).
    unfold th2. destruct name.
    - rewrite tag_set_tag_name_other by done. rewrite tag_set_var_name.
      by apply tag_set_annotations_other.
    - by apply tag_set_annotations_other. }
  simpl in H1, H2, H3, H4, H5, H6, H7, H8.
  unfold roles_of at 2 in H6. unfold th3 in H5, H6, H7.
  rewrite tag_set_roles in H5, H6, H7. simpl in H5, H6, H7.
  rewrite Ht2 in H5. simpl in H5.
  assert (roles_of th2 expression = roles_of (theano w) expression) as Hr2.
  { unfold roles_of. by rewrite Ht2. }
  rewrite Hr2 in H6.
  split_and!; simpl; try done.
  - rewrite H1. by destruct name.
  - rewrite H2. by destruct name.
  - rewrite H3. by destruct name.
  - rewrite H4. by destruct name.
  - unfold annotations_of at 1. by rewrite H5.
  - destruct H7 as [l Hl]; [by eauto|]. rewrite Hl. f_equal.
    rewrite <-H6. unfold roles_of. by rewrite Hl.
  - intros u Hu. rewrite H8; [by apply Hother|].
    unfold th3, th2, th1. by destruct name.
Qed.

(** X9.  A store registers an expression once: after
    [add_auxiliary_variable] returned, a second call of the same store on
    the same expression raises [ValueError] and changes nothing, whatever
    roles and name it is given. *)
Theorem add_auxiliary_variable_twice (w w1 : World) (self expression : var)
    (rs rs' : option (list Role)) (name name' : option string) :
  add_auxiliary_variable role_insert self expression rs name w = Return tt w1 →
  add_auxiliary_variable role_insert self expression rs' name' w1
  = Raise ValueError w1.
Proof.
  intros (_ & Hst & _ & _ & _ & _ & _ & Ha & _)%add_auxiliary_variable_inv.
  assert (same_class w1 self (annotations_of (theano w1) expression) = true) as H.
  { apply same_class_true. exists self. split; [|done]. rewrite Ha. set_solver. }
  apply (add_annotation_raise _ expression) in H.
  unfold add_auxiliary_variable, mbind, M_bind. by rewrite H.
Qed.
End StoreExtras.

(** ** Views *)

Lemma roles_set_annotations th v l u :
  roles (tag (set_annotations v l th) u) = roles (tag th u).
Proof.
  destruct (decide (tag_of th u = tag_of th v)) as [E|E].
  - rewrite tag_set_annotations_alias by done. simpl. unfold tag. by rewrite E.
  - by rewrite tag_set_annotations_other.
Qed.

Lemma elem_of_List_filter {A} (f : A → bool) (l : list A) (x : A) :
  x ∈ List.filter f l ↔ x ∈ l ∧ f x = true.
Proof. rewrite !list_elem_of_In. apply filter_In. Qed.

Lemma List_filter_sublist {A} (f : A → bool) (l : list A) :
  List.filter f l `sublist_of` l.
Proof.
  induction l as [|x l IH]; simpl; [done|].
  destruct (f x); [by apply sublist_skip|by apply sublist_cons].
Qed.

Section ViewFacts.
Variable sort_apply_nodes : Theano → list var → list Apply.t.
Variable is_graph_input : Theano → var → bool.
Variable role_insert : Role → list Role → list Role.

(** X10.  The scenario of the class docstring: after
    [annotation.add_auxiliary_variable(expression)] and
    [add_annotation(x, annotation)], a graph built from outputs whose main
    path contains [x] lists [expression] among its [auxiliary_variables],
    provided [add_role] inserts its label and keeps the labels present. *)
Theorem annotated_auxiliary_variable_is_found (w w1 w2 w3 : World)
    (self expression x g : var) (rs : option (list Role))
    (name : option string) (outs : list var) :
  (∀ r l, r ∈ role_insert r l) →
  (∀ r r' l, r' ∈ l → r' ∈ role_insert r l) →
  add_auxiliary_variable role_insert self expression rs name w = Return tt w1 →
  add_annotation x self w1 = Return tt w2 →
  x ∈ main_vars sort_apply_nodes (theano w2) outs →
  ComputationGraph__init__ sort_apply_nodes (VariableList outs) w2 = Return g w3 →
  ∃ l, auxiliary_variables g w3 = Return l w3 ∧ expression ∈ l.
Proof.
  intros Hin Hmono H1 H2 Hx H3.
  apply add_auxiliary_variable_inv in H1
    as (_ & Hst & _ & _ & _ & _ & _ & _ & Hroles & _).
  apply add_annotation_inv in H2 as [_ ->].
  rewrite ComputationGraph__init__eq in H3. cbv zeta in H3.
  destruct (forallb _ _); [|done].
  injection H3 as <- <-.
  set (w2 := set_theano _ w1) in *.
  unfold auxiliary_variables, gets. eexists. split; [reflexivity|].
  rewrite graph_set_graph. simpl.
  apply elem_of_List_filter. split.
  - apply (discover_auxiliary sort_apply_nodes w2 outs x self); [done| |].
    + unfold w2. simpl. rewrite annotations_of_set_annotations. set_solver.
    + unfold store, w2. simpl. rewrite Hst, lookup_total_insert_eq. simpl.
      set_solver.
  - unfold has_auxiliary_role. rewrite roles_set_annotations, Hroles.
    apply bool_decide_eq_true. clear -Hin Hmono.
    generalize (roles_of (theano w) expression). intros l0.
    induction (default [] rs) as [|r l IH] using rev_ind; simpl.
    + apply Hin.
    + rewrite foldl_snoc. by apply Hmono.
Qed.

(** X11.  [intermediary_variables] is, in the order of [variables], the
    variables that are neither graph inputs nor outputs; every variable of
    the graph is an input, an output or an intermediary variable. *)
Theorem intermediary_variables_spec (w : World) (g : var) :
  ∃ ins l,
    inputs is_graph_input g w = Return ins w
    ∧ intermediary_variables is_graph_input g w = Return l w
    ∧ l `sublist_of` ComputationGraph.variables (graph w g)
    ∧ (∀ v, v ∈ l ↔ v ∈ ComputationGraph.variables (graph w g)
                     ∧ is_graph_input (theano w) v = false
                     ∧ v ∉ ComputationGraph.outputs (graph w g))
    ∧ ∀ v, v ∈ ComputationGraph.variables (graph w g) →
        v ∈ ins ∨ v ∈ ComputationGraph.outputs (graph w g) ∨ v ∈ l.
Proof.
  unfold intermediary_variables, inputs, mbind, M_bind, gets.
  eexists _, _. split; [reflexivity|]. split; [reflexivity|].
  split; [apply List_filter_sublist|].
  assert (∀ v, v ∈ ComputationGraph.variables (graph w g) →
            (v ∈ List.filter (is_graph_input (theano w))
                   (ComputationGraph.variables (graph w g))
             ↔ is_graph_input (theano w) v = true)) as Hins.
  { intros v Hv. rewrite elem_of_List_filter. naive_solver. }
  split.
  - intros v. rewrite elem_of_List_filter, andb_true_iff, !negb_true_iff,
      !bool_decide_eq_false. split.
    + intros (Hv & Hi & Ho). rewrite Hins in Hi by done.
      split_and!; try done. by destruct (is_graph_input (theano w) v).
    + intros (Hv & Hi & Ho). rewrite Hins by done. split_and!; try done.
      by rewrite Hi.
  - intros v Hv.
    destruct (is_graph_input (theano w) v) eqn:Hi; [left; by apply Hins|].
    destruct (decide (v ∈ ComputationGraph.outputs (graph w g))); [by auto|].
    right; right. rewrite elem_of_List_filter, andb_true_iff, !negb_true_iff,
      !bool_decide_eq_false. rewrite Hins by done. split_and!; try done.
    by rewrite Hi.
Qed.

Lemma foldl_insert_other {K} `{Countable K} (f : var → K) (l : list var)
    (d : gmap K var) (k : K) :
  (∀ u, u ∈ l → f u ≠ k) →
  foldl (λ d v, <[f v := v]> d) d l !! k = d !! k.
Proof.
  revert d. induction l as [|x l IH]; intros d Hl; simpl; [done|].
  rewrite IH by set_solver. apply lookup_insert_ne. apply Hl. set_solver.
Qed.

Lemma foldl_insert_last {K} `{Countable K} (f : var → K) (l : list var)
    (d : gmap K var) (i : nat) (v : var) :
  l !! i = Some v →
  (∀ u, u ∈ drop (S i) l → f u ≠ f v) →
  foldl (λ d v, <[f v := v]> d) d l !! f v = Some v.
Proof.
  revert d i. induction l as [|x l IH]; intros d [|i] Hi Hl; simplify_eq/=.
  - rewrite foldl_insert_other by done. apply lookup_insert_eq.
  - by apply (IH _ i).
Qed.

Lemma foldl_insert_sound {K} `{Countable K} (f : var → K) (l : list var)
    (d : gmap K var) (k : K) (v : var) :
  foldl (λ d v, <[f v := v]> d) d l !! k = Some v →
  (v ∈ l ∧ f v = k) ∨ d !! k = Some v.
Proof.
  revert d. induction l as [|x l IH]; intros d Hk; simpl in *; [by right|].
  apply IH in Hk as [[? ?]|Hk]; [left; set_solver|].
  apply lookup_insert_Some in Hk as [[<- <-]|[_ ?]]; [left; set_solver|by right].
Qed.

Lemma foldl_insert_complete {K} `{Countable K} (f : var → K) (l : list var)
    (d : gmap K var) (k : K) :
  is_Some (d !! k) ∨ (∃ u, u ∈ l ∧ f u = k) →
  is_Some (foldl (λ d v, <[f v := v]> d) d l !! k).
Proof.
  revert d. induction l as [|x l IH]; intros d Hk; simpl.
  - destruct Hk as [?|(u & ?%elem_of_nil & _)]; done.
  - apply IH. destruct Hk as [Hk|(u & [->|Hu]%elem_of_cons & <-)].
    + left. rewrite lookup_insert_is_Some.
      destruct (decide (f x = k)); [by left|right; done].
    + left. rewrite lookup_insert_eq. eauto.
    + right. by exists u.
Qed.

(** X12.  [dict_of_inputs] maps a name only to an input of that name,
    has a key for the name of every input, and maps the name of an input to
    that input when no later input has the same name (among inputs of one
    name the last wins; unnamed inputs share the key [None]). *)
Theorem dict_of_inputs_spec (w : World) (g : var) :
  ∃ ins d,
    inputs is_graph_input g w = Return ins w
    ∧ dict_of_inputs is_graph_input g w = Return d w
    ∧ (∀ n v, d !! n = Some v → v ∈ ins ∧ var_name (theano w) !! v = n)
    ∧ (∀ v, v ∈ ins → is_Some (d !! (var_name (theano w) !! v)))
    ∧ ∀ i v, ins !! i = Some v →
        (∀ u, u ∈ drop (S i) ins →
           var_name (theano w) !! u ≠ var_name (theano w) !! v) →
        d !! (var_name (theano w) !! v) = Some v.
Proof.
  unfold dict_of_inputs, inputs, mbind, M_bind, gets.
  eexists _, _. split; [reflexivity|]. split; [reflexivity|]. split_and!.
  - intros n v Hd.
    by apply (foldl_insert_sound (λ u, var_name (theano w) !! u)) in Hd as [?|?].
  - intros v Hv.
    apply (foldl_insert_complete (λ u, var_name (theano w) !! u)). right.
    by exists v.
  - intros i v Hi Hl.
    by apply (foldl_insert_last (λ u, var_name (theano w) !! u) _ _ i).
Qed.
End ViewFacts.

(** ** More on the transformations *)

(** X13.  The slice bounds [zip(cumsum([0] + sizes[:-1]), cumsum(sizes))]
    of [collect_parameters] tile the buffer: there is one slice per
    parameter, the slice at position [k] starts at the sum of the sizes
    before [k] and has the length of the parameter, each slice starts where
    the previous one stops, and the last one stops at the total size. *)
Theorem collected_slices_tile (sizes : list Z) :
  length (zip (cumsum (0 :: removelast sizes)) (cumsum sizes)) = length sizes
  ∧ (∀ k i j, zip (cumsum (0 :: removelast sizes)) (cumsum sizes) !! k = Some (i, j) →
       i = sum (take k sizes) ∧ sizes !! k = Some (j - i))
  ∧ (∀ k i j i' j',
       zip (cumsum (0 :: removelast sizes)) (cumsum sizes) !! k = Some (i, j) →
       zip (cumsum (0 :: removelast sizes)) (cumsum sizes) !! S k = Some (i', j') →
       i' = j)
  ∧ ∀ i j, last (zip (cumsum (0 :: removelast sizes)) (cumsum sizes)) = Some (i, j) →
      j = sum sizes.
Proof.
  rewrite collected_offsets.
  assert (∀ k i j, offsets_from 0 sizes !! k = Some (i, j) →
            ∃ s, sizes !! k = Some s ∧ i = sum (take k sizes) ∧ j = i + s) as Hk.
  { intros k i j H.
    assert (k < length sizes)%nat as Hlt.
    { rewrite <-(length_offsets_from 0). by eapply lookup_lt_Some. }
    destruct (lookup_lt_is_Some_2 _ _ Hlt) as [s Hs].
    rewrite (offsets_from_lookup 0 _ _ _ Hs) in H. exists s.
    split; [done|]. simplify_eq. lia. }
  split; [apply length_offsets_from|]. split_and!.
  - intros k i j H. destruct (Hk _ _ _ H) as (s & Hs & -> & ->).
    split; [done|]. rewrite Hs. f_equal. lia.
  - intros k i j i' j' H H'.
    destruct (Hk _ _ _ H) as (s & Hs & -> & ->).
    destruct (Hk _ _ _ H') as (s' & Hs' & -> & ->).
    rewrite (take_S_r _ _ _ Hs). unfold sum. rewrite foldl_snoc. done.
  - intros i j H. rewrite last_lookup in H.
    destruct (Hk _ _ _ H) as (s & Hs & -> & ->).
    rewrite length_offsets_from in Hs |- *.
    rewrite <-(take_drop (pred (length sizes)) sizes) at 3.
    assert (drop (pred (length sizes)) sizes = [s]) as ->.
    { rewrite (drop_S _ _ _ Hs). f_equal. apply drop_ge.
      destruct (length sizes); simpl; lia. }
    unfold sum. by rewrite foldl_snoc.
Qed.

Lemma noise_loop (seed : Z) (level : float) (vs : list var)
    (repl : gmap var var) (d : nat) (w : World) :
  ∃ repl' th',
    for_each (λ (acc : gmap var var * nat) variable,
        sh ← new_node Shape [variable];
        noise ← new_node (Normal seed acc.2 level) [sh];
        noisy ← new_node Add [variable; noise];
        mret (<[variable := noisy]> acc.1, S acc.2))
      vs (repl, d) w
    = Return (repl', (d + length vs)%nat) (set_theano th' w)
    ∧ extends (theano w) th'
    ∧ dom repl' = dom repl ∪ list_to_set vs
    ∧ (∀ p, p ∉ vs → repl' !! p = repl !! p)
    ∧ ∀ k v, vs !! k = Some v → v ∉ drop (S k) vs →
        ∃ sh noise noisy, repl' !! v = Some noisy
          ∧ noisy ∉ vars (theano w)
          ∧ owner th' !! noisy = Some (Apply.mk Add [v; noise])
          ∧ owner th' !! noise = Some (Apply.mk (Normal seed (d + k) level) [sh])
          ∧ owner th' !! sh = Some (Apply.mk Shape [v]).
Proof.
  match goal with |- context [for_each ?b] => set (body := b) end.
  revert repl d w. induction vs as [|x vs IH]; intros repl d w.
  - exists repl, (theano w). rewrite Nat.add_0_r. split; [by destruct w|].
    split; [apply extends_refl|]. split; [set_solver|]. split; [done|].
    intros k v H. by destruct k.
  - cbn [for_each]. unfold mbind, M_bind. unfold body at 1.
    unfold mbind, M_bind. cbv beta. cbn [fst snd].
    destruct (new_node_spec Shape [x] w)
      as (sh & th1 & -> & Hsh & Hsh' & He1 & Ho1 & _).
    cbv beta iota.
    destruct (new_node_spec (Normal seed d level) [sh] (set_theano th1 w))
      as (noise & th2 & -> & Hno & Hno' & He2 & Ho2 & _).
    cbv beta iota.
    destruct (new_node_spec Add [x; noise] (set_theano th2 (set_theano th1 w)))
      as (noisy & th3 & -> & Hny & Hny' & He3 & Ho3 & _).
    simpl in Hno, He2, Hny, He3.
    unfold mret, M_ret. cbv beta iota. cbn [fst snd].
    change (set_theano th3 (set_theano th2 (set_theano th1 w)))
      with (set_theano th3 w).
    pose proof (extends_trans _ _ _ He1 He2) as He12.
    pose proof (extends_trans _ _ _ He12 He3) as He13.
    destruct (IH (<[x := noisy]> repl) (S d) (set_theano th3 w))
      as (repl' & th' & -> & He' & Hdom & Hrest & Hk).
    simpl in He', Hk.
    exists repl', th'. split; [f_equal; f_equal; simpl; lia|].
    split; [by eapply extends_trans|]. split; [|split].
    + rewrite Hdom, dom_insert_L. set_solver.
    + intros p Hp. rewrite Hrest by set_solver. apply lookup_insert_ne. set_solver.
    + intros [|k] y Hy Hlast; simplify_eq/=.
      * exists sh, noise, noisy. rewrite Hrest by done. rewrite lookup_insert_eq.
        destruct He' as (_ & _ & _ & _ & He').
        destruct (He' noisy Hny') as [-> _].
        assert (noise ∈ vars th3) as Hno3 by (destruct He3 as [? _]; set_solver).
        assert (sh ∈ vars th2) as Hsh2 by (destruct He2 as [? _]; set_solver).
        assert (sh ∈ vars th3) as Hsh3 by (destruct He3 as [? _]; set_solver).
        destruct (He' noise Hno3) as [-> _]. destruct (He' sh Hsh3) as [-> _].
        destruct He3 as (_ & _ & _ & _ & He3).
        destruct (He3 noise Hno') as [-> _]. destruct (He3 sh Hsh2) as [-> _].
        destruct He2 as (_ & _ & _ & _ & He2).
        destruct (He2 sh Hsh') as [-> _].
        rewrite Nat.add_0_r. split_and!; try done.
        destruct He12 as [? _]. set_solver.
      * destruct (Hk k y Hy Hlast) as (sh' & noise' & noisy' & G1 & G2 & G3 & G4 & G5).
        exists sh', noise', noisy'. split_and!; try done.
        -- destruct He13 as [? _]. set_solver.
        -- rewrite G4. do 3 f_equal. lia.
Qed.

Lemma collect_values_raise (params : list var)
    (acc : list ndarray * list Z * list (list Z)) (w : World) :
  (∃ p, p ∈ params ∧ value (theano w) !! p = None) →
  for_each (λ (acc : list ndarray * list Z * list (list Z)) param,
      a ← get_value param;
      mret (acc.1.1 ++ [a], acc.1.2 ++ [size a], acc.2 ++ [shape a]))
    params acc w
  = Raise AttributeError w.
Proof.
  revert acc. induction params as [|q params IH]; intros acc (p & Hp & Hv).
  - by apply elem_of_nil in Hp.
  - cbn [for_each]. unfold mbind, M_bind, get_value at 1.
    destruct (value (theano w) !! q) as [a|] eqn:Hq; [|done].
    cbv beta iota. unfold mret at 1, M_ret at 1. apply IH.
    exists p. split; [|done]. apply elem_of_cons in Hp as [->|?]; [congruence|done].
Qed.

Lemma shared_values (th : Theano) (params : list var) :
  (∀ p, p ∈ params → is_Some (value th !! p)) →
  ∃ vals, Forall2 (λ p a, value th !! p = Some a) params vals.
Proof.
  induction params as [|p params IH]; intros H.
  - exists []. constructor.
  - destruct (H p) as [a Ha]; [set_solver|].
    destruct IH as [vals Hvals]; [set_solver|].
    exists (a :: vals). by constructor.
Qed.

Lemma collected_replacements_run (params : list var) (vals : list ndarray) (w : World) :
  Forall2 (λ p a, value (theano w) !! p = Some a) params vals →
  collected_replacements params w
  = match for_each (λ (repl : gmap var var) (x : var * (list Z * (Z * Z))),
        sliced ← new_node (Subtensor x.2.2.1 x.2.2.2) [fresh (vars (theano w))];
        new_param ← new_node (Reshape x.2.1) [sliced];
        modify_theano (λ th, set_var_tag new_param (tag_of th x.1) th);;
        mret (<[x.1 := new_param]> repl))
      (zip params (zip (shape <$> vals) (offsets_from 0 (size <$> vals)))) ∅
      (set_theano
         (set_var_name (fresh (vars (theano w))) "collected_params"
            (new_variable None (Some (mkArray [sum (size <$> vals)])) (theano w)).2) w)
    with
    | Return r w' => Return (fresh (vars (theano w)), r) w'
    | Raise e w' => Raise e w'
    end.
Proof.
  intros Hv. unfold collected_replacements. unfold mbind at 1, M_bind at 1.
  rewrite (collect_values_loop params vals) by done. cbn [fst snd app].
  by rewrite collected_offsets.
Qed.

Lemma replace_slices_keys (buf : var) (items : list (var * (list Z * (Z * Z))))
    (repl repl' : gmap var var) (w w' : World) :
  for_each (λ (repl : gmap var var) (x : var * (list Z * (Z * Z))),
      sliced ← new_node (Subtensor x.2.2.1 x.2.2.2) [buf];
      new_param ← new_node (Reshape x.2.1) [sliced];
      modify_theano (λ th, set_var_tag new_param (tag_of th x.1) th);;
      mret (<[x.1 := new_param]> repl))
    items repl w
  = Return repl' w' →
  dom repl' = dom repl ∪ list_to_set items.*1
  ∧ (∀ p n, repl' !! p = Some n →
       repl !! p = Some n ∨ (p ∈ items.*1 ∧ n ∉ vars (theano w)))
  ∧ ∃ th', w' = set_theano th' w ∧ extends (theano w) th'.
Proof.
  match goal with |- context [for_each ?b] => set (body := b) end.
  revert repl w. induction items as [|x items IH]; intros repl w Hrun.
  - injection Hrun as <- <-. split; [set_solver|]. split; [by auto|].
    exists (theano w). split; [by destruct w|apply extends_refl].
  - cbn [for_each] in Hrun. unfold mbind, M_bind in Hrun. unfold body at 1 in Hrun.
    unfold mbind, M_bind in Hrun. cbv beta in Hrun.
    destruct (new_node_spec (Subtensor x.2.2.1 x.2.2.2) [buf] w)
      as (sl & th1 & Hsl_run & Hsl & Hsl' & He1 & _).
    rewrite Hsl_run in Hrun. cbv beta iota in Hrun.
    destruct (new_node_spec (Reshape x.2.1) [sl] (set_theano th1 w))
      as (np & th2 & Hnp_run & Hnp & Hnp' & He2 & _).
    rewrite Hnp_run in Hrun. simpl in Hnp, He2.
    unfold modify_theano, modify, mret, M_ret in Hrun. cbv beta iota in Hrun.
    set (th3 := set_var_tag np (tag_of th2 x.1) th2) in *.
    change (set_theano _ (set_theano th2 (set_theano th1 w)))
      with (set_theano th3 w) in Hrun.
    pose proof (extends_trans _ _ _ He1 He2) as He12.
    assert (np ∉ vars (theano w)) as Hnpw.
    { destruct He1 as [? _]. set_solver. }
    assert (extends (theano w) th3) as He3.
    { destruct He12 as (H1 & H2 & H3 & H4 & H5).
      split_and!; try done. intros v Hv. destruct (H5 v Hv) as [<- <-].
      split; [done|]. simpl. apply lookup_insert_ne. by intros <-. }
    apply IH in Hrun as (Hdom & Hval & th' & -> & He').
    simpl in He', Hval. split; [|split].
    + rewrite Hdom, dom_insert_L, fmap_cons. set_solver.
    + intros p n Hp. apply Hval in Hp as [Hp|[Hp Hn]].
      * apply lookup_insert_Some in Hp as [[<- <-]|[_ Hp]]; [|by left].
        right. rewrite fmap_cons. split; [set_solver|done].
      * right. rewrite fmap_cons. split; [set_solver|].
        destruct He3 as [? _]. set_solver.
    + exists th'. split; [done|]. by eapply extends_trans.
Qed.

(** X16.  The replacements of [collect_parameters] have exactly the
    parameters as keys and only new variables, none of them the buffer, as
    values; every variable that existed keeps its owner, tag, name and
    container, and no tag, store or graph changes. *)
Theorem collected_replacements_keys (w w' : World) (params : list var)
    (buf : var) (repl : gmap var var) :
  collected_replacements params w = Return (buf, repl) w' →
  dom repl = list_to_set params
  ∧ buf ∉ vars (theano w)
  ∧ (∀ p n, repl !! p = Some n → n ∉ vars (theano w) ∧ n ≠ buf)
  ∧ stores w' = stores w ∧ graphs w' = graphs w
  ∧ tags (theano w') = tags (theano w)
  ∧ ∀ v, v ∈ vars (theano w) →
      v ∈ vars (theano w')
      ∧ owner (theano w') !! v = owner (theano w) !! v
      ∧ var_tag (theano w') !! v = var_tag (theano w) !! v
      ∧ var_name (theano w') !! v = var_name (theano w) !! v
      ∧ value (theano w') !! v = value (theano w) !! v.
Proof.
  intros Hrun.
  assert (∀ p, p ∈ params → is_Some (value (theano w) !! p)) as Hall.
  { intros p Hp. destruct (value (theano w) !! p) eqn:Hv; [by eauto|].
    unfold collected_replacements in Hrun.
    unfold mbind at 1, M_bind at 1 in Hrun.
    rewrite collect_values_raise in Hrun; [done|]. by exists p. }
  destruct (shared_values _ _ Hall) as [vals Hvals].
  rewrite (collected_replacements_run _ vals) in Hrun by done.
  pose proof (Forall2_length _ _ _ Hvals) as Hlen.
  set (th0 := set_var_name _ _ _) in Hrun.
  destruct (for_each _ _ _ _) as [r w1|] eqn:Hloop; [|done].
  injection Hrun as <- <- <-.
  apply replace_slices_keys in Hloop as (Hdom & Hval & th' & -> & He).
  pose proof (is_fresh (vars (theano w))) as Hfresh.
  destruct He as (Hvars & Hv & Ht & Hn & Hold). simpl in *.
  split_and!; try done.
  - rewrite Hdom, dom_empty_L, fst_zip; [set_solver|].
    rewrite length_zip, length_offsets_from, !length_fmap. lia.
  - intros p n Hp. apply Hval in Hp as [Hp|[_ Hn']]; [done|].
    split; set_solver.
  - intros v Hv'.
    destruct (Hold v) as [Ho Hvt]; [set_solver|].
    assert (v ≠ fresh (vars (theano w))) as Hne by (by intros ->).
    split_and!.
    + set_solver.
    + by rewrite Ho.
    + by rewrite Hvt.
    + rewrite Hn. by apply lookup_insert_ne.
    + rewrite Hv. by apply lookup_insert_ne.
Qed.
Section TransformExtras.
Variable sort_apply_nodes : Theano → list var → list Apply.t.
Variable theano_clone : list var → replacements → Theano → list var * Theano.
Variable default_seed : Z.

(** X14.  With a seed other than 0, [apply_noise] replaces exactly the
    listed variables; a variable at position [k] that is not listed again
    later is replaced by a new node [variable + normal(variable.shape,
    std=level)] whose normal draw is the draw number [k] of the stream
    seeded with that seed.  Existing variables, stores and graphs are
    unchanged. *)
Theorem apply_noise_builds_noisy_nodes (w : World) (g : var)
    (variables : list var) (level : float) (seed : Z) :
  seed ≠ 0 →
  ∃ repl w',
    noise_replacements (MRG_RandomStreams seed) variables level w = Return repl w'
    ∧ apply_noise sort_apply_nodes theano_clone default_seed g variables level
        (Some seed) w
      = replace sort_apply_nodes theano_clone g (ReplaceDict repl) w'
    ∧ dom repl = list_to_set variables
    ∧ stores w' = stores w ∧ graphs w' = graphs w
    ∧ extends (theano w) (theano w')
    ∧ ∀ k v, variables !! k = Some v → v ∉ drop (S k) variables →
        ∃ sh noise noisy, repl !! v = Some noisy
          ∧ noisy ∉ vars (theano w)
          ∧ owner (theano w') !! noisy = Some (Apply.mk Add [v; noise])
          ∧ owner (theano w') !! noise
            = Some (Apply.mk (Normal seed k level) [sh])
          ∧ owner (theano w') !! sh = Some (Apply.mk Shape [v]).
Proof.
  intros Hseed.
  destruct (noise_loop seed level variables ∅ 0 w)
    as (repl & th' & Hloop & He & Hdom & _ & Hk).
  assert (noise_replacements (MRG_RandomStreams seed) variables level w
          = Return repl (set_theano th' w)) as Hrun.
  { unfold noise_replacements. unfold mbind at 1, M_bind at 1.
    exact (f_equal (λ o, match o with
                         | Return r w' => Return r.1 w'
                         | Raise e w' => Raise e w'
                         end) Hloop). }
  exists repl, (set_theano th' w). split; [done|]. split.
  { unfold apply_noise. rewrite decide_False by done.
    unfold mbind at 1, M_bind at 1. by rewrite Hrun. }
  split; [rewrite Hdom; set_solver|]. split_and!; try done.
Qed.

(** X15.  When one of the parameters is not a shared variable,
    [collect_parameters] raises [AttributeError] before anything is
    created: the store is unchanged. *)
Theorem collect_parameters_needs_shared_variables (w : World) (g p : var)
    (params : list var) :
  p ∈ params → value (theano w) !! p = None →
  collected_replacements params w = Raise AttributeError w
  ∧ collect_parameters sort_apply_nodes theano_clone g params w
    = Raise AttributeError w.
Proof.
  intros Hp Hv.
  assert (collected_replacements params w = Raise AttributeError w) as H.
  { unfold collected_replacements. unfold mbind at 1, M_bind at 1.
    rewrite collect_values_raise; [done|]. by exists p. }
  split; [done|]. unfold collect_parameters, mbind, M_bind. by rewrite H.
Qed.

End TransformExtras.

Section ConstructExtras.
Variable sort_apply_nodes : Theano → list var → list Apply.t.

(** X17.  Constructing a graph adds one graph object and changes nothing
    else: its [outputs] are the outputs given, each of them is in its
    [variables], and the Theano store, the annotation stores and the other
    graph objects are as before. *)
Theorem construction_adds_one_graph (w w' : World) (outs : list var) (g : var) :
  ComputationGraph__init__ sort_apply_nodes (VariableList outs) w = Return g w' →
  graphs w !! g = None
  ∧ ComputationGraph.outputs (graph w' g) = outs
  ∧ (∀ o, o ∈ outs → o ∈ ComputationGraph.variables (graph w' g))
  ∧ theano w' = theano w ∧ stores w' = stores w
  ∧ ∀ g0, g0 ≠ g → graphs w' !! g0 = graphs w !! g0.
Proof.
  rewrite ComputationGraph__init__eq. cbv zeta. intros H.
  destruct (forallb _ _); [|done]. injection H as <- <-.
  rewrite graph_set_graph. simpl. split_and!; try done.
  - apply not_elem_of_dom, is_fresh.
  - intros o Ho.
    eapply elem_of_sublist; [|apply (main_vars_sublist sort_apply_nodes w outs)].
    unfold main_vars. set_solver.
  - intros g0 Hg0. by apply lookup_insert_ne.
Qed.
End ConstructExtras.

(** ** Instances on the example graphs *)

Lemma main_path_in_variables_witness :
  4%positive ∈ scan_variables (discover duplicate_sort duplicate_world [4%positive])
  ∧ 1%positive ∈ scan_variables (discover duplicate_sort duplicate_world [4%positive]).
Proof.
  destruct (main_path_in_variables duplicate_sort duplicate_world [4%positive])
    as (_ & Hout & Hin).
  split.
  - apply Hout. set_solver.
  - apply (Hin add_x_y); [vm_compute|simpl]; set_solver.
Defined.

Lemma variables_origin_witness :
  3%positive ∈ main_vars example_sort (theano example_world) [2%positive]
  ∨ ∃ v a, v ∈ main_vars example_sort (theano example_world) [2%positive]
      ∧ a ∈ annotations_of (theano example_world) v
      ∧ 3%positive ∈ Annotation.auxiliary_variables (store example_world a).
Proof.
  apply (variables_origin example_sort example_world [2%positive] 3%positive).
  vm_compute. set_solver.
Defined.

Lemma variables_decomposition_witness :
  ∃ A, scan_variables (discover example_sort example_world [2%positive])
         ≡ₚ main_vars example_sort (theano example_world) [2%positive] ++ A
    ∧ NoDup A.
Proof.
  destruct (variables_decomposition example_sort example_world [2%positive])
    as (A & H1 & H2 & _).
  by exists A.
Defined.

Lemma variables_NoDup_witness :
  NoDup (scan_variables (discover example_sort example_world [2%positive])).
Proof.
  apply (variables_NoDup_iff example_sort example_world [2%positive]). split.
  - apply NoDup_singleton.
  - intros o Ho. apply list_elem_of_singleton in Ho as ->. vm_compute.
    intros H. apply list_elem_of_singleton in H. discriminate.
Defined.

Lemma discovery_without_annotations_witness :
  scan_variables (discover duplicate_sort duplicate_world [4%positive])
  = main_vars duplicate_sort (theano duplicate_world) [4%positive]
  ∧ scan_updates (discover duplicate_sort duplicate_world [4%positive]) = [].
Proof.
  apply (discovery_without_annotations duplicate_sort duplicate_world [4%positive]).
  intros v _. reflexivity.
Defined.

Lemma add_annotation_frame_witness :
  annotations_of
    (theano (world_after (add_annotation 1%positive 3%positive) example_world))
    2%positive
  = annotations_of (theano example_world) 2%positive.
Proof.
  destruct (add_annotation_changes_one_list example_world
              (world_after (add_annotation 1%positive 3%positive) example_world)
              1%positive 3%positive eq_refl)
    as (_ & _ & _ & _ & _ & _ & _ & _ & H).
  apply H. vm_compute. discriminate.
Defined.

Lemma add_annotation_shared_tag_witness :
  annotations_of
    (theano (world_after (add_annotation 11%positive 3%positive)
               (world_after (collected_replacements [5%positive]) example_world)))
    5%positive
  = [3%positive].
Proof.
  apply (add_annotation_reaches_shared_tag
           (world_after (collected_replacements [5%positive]) example_world)
           _ 11%positive 3%positive 5%positive); reflexivity.
Defined.

Lemma add_annotation_classes_witness :
  NoDup ((λ b, Annotation.class
                 (store (world_after (add_annotation 1%positive 3%positive)
                           example_world) b))
         <$> annotations_of
               (theano (world_after (add_annotation 1%positive 3%positive)
                          example_world))
               1%positive).
Proof.
  apply (add_annotation_keeps_classes_distinct example_world _ 1%positive 3%positive);
    [|reflexivity].
  vm_compute. apply NoDup_singleton.
Defined.

Lemma add_auxiliary_variable_twice_witness :
  add_auxiliary_variable append_role 3%positive 6%positive None (Some "again"%string)
    (world_after (add_auxiliary_variable append_role 3%positive 6%positive None None)
       example_world)
  = Raise ValueError
      (world_after (add_auxiliary_variable append_role 3%positive 6%positive None None)
         example_world).
Proof.
  apply (add_auxiliary_variable_twice append_role example_world _
           3%positive 6%positive None None None (Some "again"%string)).
  reflexivity.
Defined.

Lemma annotated_auxiliary_variable_witness :
  ∃ l, auxiliary_variables 2%positive
         (world_after (ComputationGraph__init__ example_sort (VariableList [2%positive]))
            (world_after (add_annotation 2%positive 3%positive)
               (world_after (add_auxiliary_variable append_role 3%positive 6%positive
                               None (Some "aux"%string)) example_world)))
       = Return l
           (world_after (ComputationGraph__init__ example_sort (VariableList [2%positive]))
              (world_after (add_annotation 2%positive 3%positive)
                 (world_after (add_auxiliary_variable append_role 3%positive 6%positive
                                 None (Some "aux"%string)) example_world)))
    ∧ 6%positive ∈ l.
Proof.
  apply (annotated_auxiliary_variable_is_found example_sort append_role
           example_world
           (world_after (add_auxiliary_variable append_role 3%positive 6%positive
                           None (Some "aux"%string)) example_world)
           (world_after (add_annotation 2%positive 3%positive)
              (world_after (add_auxiliary_variable append_role 3%positive 6%positive
                              None (Some "aux"%string)) example_world))
           _ 3%positive 6%positive 2%positive 2%positive None (Some "aux"%string)
           [2%positive]).
  - apply append_role_elem.
  - apply append_role_mono.
  - reflexivity.
  - reflexivity.
  - vm_compute. set_solver.
  - vm_compute. reflexivity.
Defined.

Lemma intermediary_variables_witness :
  ∃ l, intermediary_variables example_is_graph_input 1%positive example_world
       = Return l example_world
    ∧ 3%positive ∈ l.
Proof.
  destruct (intermediary_variables_spec example_is_graph_input example_world 1%positive)
    as (ins & l & _ & Hrun & _ & Hl & _).
  exists l. split; [done|]. apply Hl. split_and!.
  - vm_compute. set_solver.
  - reflexivity.
  - vm_compute. intros H. apply list_elem_of_singleton in H. discriminate.
Defined.

Lemma dict_of_inputs_witness :
  ∃ d, dict_of_inputs example_is_graph_input 1%positive example_world
       = Return d example_world
    ∧ d !! (None : option string) = Some 1%positive.
Proof.
  destruct (dict_of_inputs_spec example_is_graph_input example_world 1%positive)
    as (ins & d & Hins & Hrun & _ & _ & Hlast).
  exists d. split; [done|].
  assert (ins = [1%positive]) as -> by (vm_compute in Hins; congruence).
  apply (Hlast 0%nat 1%positive); [reflexivity|].
  intros u Hu. simpl in Hu. by apply elem_of_nil in Hu.
Defined.

Lemma collected_slices_tile_witness : 10 = sum [6; 4].
Proof.
  destruct (collected_slices_tile [6; 4]) as (_ & _ & _ & H).
  apply (H 6 10). reflexivity.
Defined.

Lemma apply_noise_witness :
  ∃ repl w' sh noise noisy,
    noise_replacements (MRG_RandomStreams 7) [1%positive] 1%float example_world
    = Return repl w'
    ∧ repl !! 1%positive = Some noisy
    ∧ owner (theano w') !! noisy = Some (Apply.mk Add [1%positive; noise])
    ∧ owner (theano w') !! noise = Some (Apply.mk (Normal 7 0 1%float) [sh]).
Proof.
  assert (7 ≠ 0) as H7 by discriminate.
  destruct (apply_noise_builds_noisy_nodes example_sort example_clone 1 example_world
              1%positive [1%positive] 1%float 7 H7)
    as (repl & w' & Hrun & _ & _ & _ & _ & _ & Hk).
  destruct (Hk 0%nat 1%positive) as (sh & noise & noisy & H1 & _ & H2 & H3 & _).
  { reflexivity. } { simpl. apply not_elem_of_nil. }
  by exists repl, w', sh, noise, noisy.
Defined.

Lemma collect_parameters_needs_shared_witness :
  collect_parameters example_sort example_clone 1%positive [5; 1]%positive
    example_world
  = Raise AttributeError example_world.
Proof.
  apply (collect_parameters_needs_shared_variables example_sort example_clone
           example_world 1%positive 1%positive [5; 1]%positive).
  - set_solver.
  - reflexivity.
Defined.

Lemma collected_replacements_keys_witness :
  ∃ buf repl w',
    collected_replacements [5; 7]%positive example_world = Return (buf, repl) w'
    ∧ dom repl = list_to_set [5; 7]%positive
    ∧ owner (theano w') !! 2%positive = owner (theano example_world) !! 2%positive.
Proof.
  pose (o := collected_replacements [5; 7]%positive example_world).
  assert (collected_replacements [5; 7]%positive example_world = o) as Ho
    by reflexivity.
  vm_compute in o. subst o.
  eexists _, _, _. split; [exact Ho|].
  destruct (collected_replacements_keys _ _ _ _ _ Ho)
    as (Hdom & _ & _ & _ & _ & _ & Hold).
  split; [exact Hdom|].
  destruct (Hold 2%positive) as (_ & H & _); [vm_compute; set_solver|exact H].
Defined.

Lemma construction_witness :
  2%positive
  ∈ ComputationGraph.variables
      (graph (world_after
                (ComputationGraph__init__ example_sort (VariableList [2%positive]))
                example_world) 2%positive).
Proof.
  destruct (construction_adds_one_graph example_sort example_world
              (world_after
                 (ComputationGraph__init__ example_sort (VariableList [2%positive]))
                 example_world) [2%positive] 2%positive)
    as (_ & _ & H & _).
  { vm_compute. reflexivity. }
  apply H. set_solver.
Defined.
